(** * Xonix territory engine: grid, flood fill, trail state machine, enemies

    A shallow embedding of [src/games/xonix/game.py] (class [XonixGame] and
    class [Enemy]) together with the properties of the territory-claiming
    engine.  Python statements that mutate [self] become functions from a
    game record to a game record; statements that may raise become
    computations in the small exception monad [Res]. *)

From Stdlib Require Import ZArith QArith Lia.
From stdpp Require Import base decidable option list gmap sets strings.

Local Open Scope Z_scope.

(** ** Exceptions *)

(** [IndexError] is Python's exception for a list subscript out of range.
    [OutOfFuel] is not a Python exception: the [while stack:] loop of
    [flood_fill] is run with a step budget, and [flood_fill_spec] shows the
    budget is never exhausted. *)
Inductive Exn := IndexError | OutOfFuel.

Inductive Res (A : Type) : Type :=
  | Ok (a : A)
  | Raise (e : Exn).
Arguments Ok {A} a.
Arguments Raise {A} e.

#[global] Instance Res_ret : MRet Res := λ A a, Ok a.
#[global] Instance Res_bind : MBind Res := λ A B f m,
  match m with Ok a => f a | Raise e => Raise e end.
#[global] Instance Res_fmap : FMap Res := λ A B f m,
  match m with Ok a => Ok (f a) | Raise e => Raise e end.

(** [for v in l: acc = f(acc, v)] where the body may raise. *)
Fixpoint for_each {A B : Type} (f : A → B → Res A) (l : list B) (acc : A) : Res A :=
  match l with
  | [] => Ok acc
  | v :: l' => acc' ← f acc v; for_each f l' acc'
  end.

(** ** Python list subscripts *)

(** [l[i]] accepts [0 <= i < len(l)] and the negative indices
    [-len(l) <= i < 0], which count from the end; anything else raises. *)
Definition py_index (n : nat) (i : Z) : Res nat :=
  if bool_decide (0 ≤ i < Z.of_nat n) then Ok (Z.to_nat i)
  else if bool_decide (- Z.of_nat n ≤ i < 0) then Ok (Z.to_nat (Z.of_nat n + i))
  else Raise IndexError.

Definition py_getitem {A : Type} (l : list A) (i : Z) : Res A :=
  n ← py_index (length l) i;
  match l !! n with Some v => Ok v | None => Raise IndexError end.

Definition py_setitem {A : Type} (l : list A) (i : Z) (v : A) : Res (list A) :=
  n ← py_index (length l) i; Ok (<[n:=v]> l).

(** ** Constants of [XonixGame] *)

Definition GRID_SIZE : Z := 10.
Definition GRID_WIDTH : Z := 70.
Definition GRID_HEIGHT : Z := 50.
Definition WINDOW_WIDTH : Z := GRID_SIZE * GRID_WIDTH.
Definition WINDOW_HEIGHT : Z := GRID_SIZE * GRID_HEIGHT + 60.
Definition TARGET_PERCENTAGE : Q := 75.
Definition INITIAL_ENEMIES : nat := 3.

(** Cell states: the class attributes [EMPTY = 0], [CLAIMED = 1],
    [BORDER = 2], [TRAIL = 3]. *)
Inductive Cell := EMPTY | CLAIMED | BORDER | TRAIL.

#[global] Instance Cell_eq_dec : EqDecision Cell.
Proof. solve_decision. Defined.

(** ** Data model *)

(** [class Enemy].  The constructor is annotated with [float] coordinates,
    but every value the game stores there is a Python [int]:
    [reset_game_state] draws [randint(..) * GRID_SIZE] and
    [choice([-2, 2])], and [update_enemies] only adds and negates. *)
Record Enemy := mkEnemy {
  e_x : Z; e_y : Z; e_vx : Z; e_vy : Z; e_radius : Z
}.

Abbreviation Pos := (Z * Z)%type.
(** [self.grid]: a list of rows, [grid[y][x]].  The rows are distinct list
    objects (built by a nested comprehension), so a row update touches one
    row only. *)
Abbreviation Grid := (list (list Cell)).

(** The game-state attributes of [XonixGame.__init__]; the display handles
    ([screen], [clock], fonts, overlay) carry no game state.  [score] is
    the Python float [(claimed / total) * 100], kept here as the exact
    rational. *)
Record XonixGame := mkGame {
  grid : Grid;
  player_x : Z;
  player_y : Z;
  enemies : list Enemy;
  trail : list Pos;
  drawing : bool;
  score : Q;
  running : bool;
  game_over : bool;
  game_won : bool;
  message : string
}.

(** ** Grid access *)

(** [self.grid[y][x]] *)
Definition grid_get (g : Grid) (x y : Z) : Res Cell :=
  row ← py_getitem g y; py_getitem row x.

(** [self.grid[y][x] = v] *)
Definition grid_set (g : Grid) (x y : Z) (v : Cell) : Res Grid :=
  row ← py_getitem g y; row' ← py_setitem row x v; py_setitem g y row'.

(** [0 <= x < self.GRID_WIDTH and 0 <= y < self.GRID_HEIGHT] *)
Definition in_bounds (x y : Z) : bool :=
  bool_decide (0 ≤ x < GRID_WIDTH) && bool_decide (0 ≤ y < GRID_HEIGHT).

Definition get_cell_state (g : Grid) (x y : Z) : Res Cell :=
  if in_bounds x y then grid_get g x y else Ok BORDER.

(** [state in [self.BORDER, self.CLAIMED]] *)
Definition border_or_claimed (c : Cell) : bool :=
  match c with BORDER | CLAIMED => true | _ => false end.

Definition is_on_border_or_claimed (g : Grid) (x y : Z) : Res bool :=
  state ← get_cell_state g x y; Ok (border_or_claimed state).

(** ** Flood fill *)

(** The body of [while stack:] in [flood_fill].  [stack] holds the Python
    list back to front: its head is the element [stack.pop()] returns, and
    the four [stack.append] calls of one iteration leave [(x - 1, y)] on
    top.  [visited] is the Python set, [area] the list built by
    [area.append]. *)
Fixpoint flood_loop (fuel : nat) (g : Grid) (stack : list Pos)
    (visited : gset Pos) (area : list Pos) : Res (gset Pos * list Pos) :=
  match stack with
  | [] => Ok (visited, area)
  | (x, y) :: stack' =>
    match fuel with
    | O => Raise OutOfFuel
    | S fuel' =>
      if bool_decide ((x, y) ∈ visited) then flood_loop fuel' g stack' visited area
      else if negb (in_bounds x y) then flood_loop fuel' g stack' visited area
      else
        c ← grid_get g x y;
        if bool_decide (c ≠ EMPTY) then flood_loop fuel' g stack' visited area
        else
          flood_loop fuel' g
            ((x - 1, y) :: (x + 1, y) :: (x, y - 1) :: (x, y + 1) :: stack')
            (visited ∪ {[ (x, y) ]}) (area ++ [(x, y)])
    end
  end.

(** [(int(enemy.x // self.GRID_SIZE), int(enemy.y // self.GRID_SIZE))];
    [//] is floor division, as is [Z.div] for a positive divisor. *)
Definition quantize (e : Enemy) : Pos := (e_x e / GRID_SIZE, e_y e / GRID_SIZE).

Definition enemy_in (visited : gset Pos) (es : list Enemy) : bool :=
  existsb (λ e, bool_decide (quantize e ∈ visited)) es.

(** Every iteration pops one entry, and only an iteration that adds a new
    in-bounds cell to [visited] pushes four. *)
Definition flood_fuel : nat := Z.to_nat (4 * (GRID_WIDTH * GRID_HEIGHT) + 1).

Definition flood_fill (g : Grid) (es : list Enemy) (start_x start_y : Z)
    : Res (list Pos * bool) :=
  '(visited, area) ← flood_loop flood_fuel g [(start_x, start_y)] ∅ [];
  Ok (area, enemy_in visited es).

(** ** Claiming territory *)

(** [for x, y in self.trail: self.grid[y][x] = self.BORDER] *)
Definition mark_trail (g : Grid) (tr : list Pos) : Res Grid :=
  for_each (λ g '(x, y), grid_set g x y BORDER) tr g.

(** [for ax, ay in area: self.grid[ay][ax] = self.CLAIMED] *)
Definition claim_area (g : Grid) (area : list Pos) : Res Grid :=
  for_each (λ g '(ax, ay), grid_set g ax ay CLAIMED) area g.

(** The body of the inner loop of [claim_territory] at column [x] of row [y]. *)
Definition claim_cell (es : list Enemy) (y : Z) (g : Grid) (x : Z) : Res Grid :=
  c ← grid_get g x y;
  if bool_decide (c = EMPTY) then
    '(area, has_enemy) ← flood_fill g es x y;
    if negb has_enemy && bool_decide (area ≠ []) then claim_area g area
    else Ok g
  else Ok g.

(** [for x in range(1, self.GRID_WIDTH - 1)] *)
Definition claim_row (es : list Enemy) (g : Grid) (y : Z) : Res Grid :=
  for_each (claim_cell es y) (seqZ 1 (GRID_WIDTH - 2)) g.

(** [for y in range(1, self.GRID_HEIGHT - 1)] *)
Definition claim_scan (es : list Enemy) (g : Grid) : Res Grid :=
  for_each (claim_row es) (seqZ 1 (GRID_HEIGHT - 2)) g.

Definition claim_territory (g : Grid) (tr : list Pos) (es : list Enemy) : Res Grid :=
  g1 ← mark_trail g tr; claim_scan es g1.

(** ** Percentage *)

Definition count_cell (g : Grid) (y : Z) (n : Z) (x : Z) : Res Z :=
  c ← grid_get g x y; Ok (if border_or_claimed c then n + 1 else n).

Definition count_row (g : Grid) (n : Z) (y : Z) : Res Z :=
  for_each (count_cell g y) (seqZ 1 (GRID_WIDTH - 2)) n.

(** [sum(1 for y in range(1, H - 1) for x in range(1, W - 1)
         if self.grid[y][x] in [self.CLAIMED, self.BORDER])] *)
Definition count_claimed (g : Grid) : Res Z :=
  for_each (count_row g) (seqZ 1 (GRID_HEIGHT - 2)) 0.

Definition interior_total : Z := (GRID_WIDTH - 2) * (GRID_HEIGHT - 2).

(** [(claimed / total) * 100 if total > 0 else 0.0] *)
Definition percentage_of (claimed total : Z) : Q :=
  if bool_decide (total > 0) then (inject_Z claimed / inject_Z total * 100)%Q else 0%Q.

Definition calculate_percentage (g : Grid) : Res Q :=
  claimed ← count_claimed g; Ok (percentage_of claimed interior_total).

(** ** Player movement *)

Definition set_game_over (s : XonixGame) (msg : string) : XonixGame :=
  mkGame (grid s) (player_x s) (player_y s) (enemies s) (trail s) (drawing s)
         (score s) (running s) true (game_won s) msg.

(** [self.player_x, self.player_y = new_x, new_y] *)
Definition set_player (s : XonixGame) (new_x new_y : Z) : XonixGame :=
  mkGame (grid s) new_x new_y (enemies s) (trail s) (drawing s)
         (score s) (running s) (game_over s) (game_won s) (message s).

(** The "Complete trail" branch of [_process_movement]. *)
Definition complete_trail (s : XonixGame) (new_x new_y : Z) : Res XonixGame :=
  g' ← claim_territory (grid s) (trail s) (enemies s);
  sc ← calculate_percentage g';
  let won := Qle_bool TARGET_PERCENTAGE sc in
  Ok (mkGame g' new_x new_y (enemies s) [] false sc (running s) (game_over s)
             (if won then true else game_won s)
             (if won then "Victory!"%string else message s)).

Definition _process_movement (s : XonixGame) (new_x new_y : Z) : Res XonixGame :=
  cell_state ← get_cell_state (grid s) new_x new_y;
  if negb (drawing s) && bool_decide (cell_state = EMPTY) then
    Ok (mkGame (grid s) new_x new_y (enemies s) [(new_x, new_y)] true
               (score s) (running s) (game_over s) (game_won s) (message s))
  else if drawing s && bool_decide ((new_x, new_y) ∈ trail s) then
    Ok (set_game_over s "Hit your own trail!")
  else if drawing s then
    is_on_border_or_claimed (grid s) new_x new_y ≫= λ solid : bool,
    if solid then complete_trail s new_x new_y
    else if bool_decide (cell_state = EMPTY) then
      Ok (mkGame (grid s) new_x new_y (enemies s) (trail s ++ [(new_x, new_y)])
                 (drawing s) (score s) (running s) (game_over s) (game_won s)
                 (message s))
    else Ok s
  else Ok (set_player s new_x new_y).

(** The four entries of [pygame.key.get_pressed()] that [handle_movement]
    reads. *)
Record Keys := mkKeys { K_UP : bool; K_DOWN : bool; K_LEFT : bool; K_RIGHT : bool }.

(** The destination chosen by the [if]/[elif] chain, and [moved]. *)
Definition destination (keys : Keys) (x y : Z) : Z * Z * bool :=
  if K_UP keys then (x, y - 1, true)
  else if K_DOWN keys then (x, y + 1, true)
  else if K_LEFT keys then (x - 1, y, true)
  else if K_RIGHT keys then (x + 1, y, true)
  else (x, y, false).

Definition handle_movement (keys : Keys) (s : XonixGame) : Res XonixGame :=
  if game_over s || game_won s then Ok s
  else
    let '(new_x, new_y, moved) := destination keys (player_x s) (player_y s) in
    if moved && in_bounds new_x new_y then _process_movement s new_x new_y
    else Ok s.

(** ** Enemies *)

(** [0 <= ex < W and 0 <= ey < H and self.grid[ey][ex] in [BORDER, CLAIMED]] *)
Definition cell_solid (g : Grid) (ex ey : Z) : Res bool :=
  if in_bounds ex ey then c ← grid_get g ex ey; Ok (border_or_claimed c)
  else Ok false.

(** The movement and bounce part of the loop body of [update_enemies]. *)
Definition bounce_enemy (g : Grid) (e : Enemy) : Res Enemy :=
  let x := e_x e + e_vx e in
  let y := e_y e + e_vy e in
  let ex := x / GRID_SIZE in
  let ey := y / GRID_SIZE in
  let r := e_radius e in
  (if bool_decide (x ≤ r) || bool_decide (x >= WINDOW_WIDTH - r) then Ok true
   else cell_solid g ex ey) ≫= λ hit_x : bool,
  let vx := if hit_x then - e_vx e else e_vx e in
  let x' := if hit_x then x + vx * 2 else x in
  (if bool_decide (y ≤ r) || bool_decide (y >= GRID_HEIGHT * GRID_SIZE - r) then Ok true
   else cell_solid g ex ey) ≫= λ hit_y : bool,
  let vy := if hit_y then - e_vy e else e_vy e in
  let y' := if hit_y then y + vy * 2 else y in
  Ok (mkEnemy x' y' vx vy r).

Definition hits_cell (e : Enemy) (cx cy : Z) : bool :=
  let dist_sq := (e_x e - cx * GRID_SIZE) ^ 2 + (e_y e - cy * GRID_SIZE) ^ 2 in
  bool_decide (dist_sq < (e_radius e + GRID_SIZE / 2) ^ 2).

Definition _enemy_hits_trail (tr : list Pos) (e : Enemy) : bool :=
  existsb (λ '(tx, ty), hits_cell e tx ty) tr.

Definition _enemy_hits_player (px py : Z) (e : Enemy) : bool :=
  hits_cell e px py.

(** [for enemy in self.enemies: ...] with its [break]; the result is the
    enemy list after the in-place updates, [game_over] and [message]. *)
Fixpoint enemies_loop (s : XonixGame) (es : list Enemy) (over : bool) (msg : string)
    : Res (list Enemy * bool * string) :=
  match es with
  | [] => Ok ([], over, msg)
  | e :: es' =>
    e' ← bounce_enemy (grid s) e;
    if drawing s && _enemy_hits_trail (trail s) e' then
      Ok (e' :: es', true, "Enemy hit your trail!"%string)
    else
      let '(over', msg') :=
        if drawing s && _enemy_hits_player (player_x s) (player_y s) e'
        then (true, "Enemy hit you!"%string) else (over, msg) in
      '(es'', over'', msg'') ← enemies_loop s es' over' msg';
      Ok (e' :: es'', over'', msg'')
  end.

Definition update_enemies (s : XonixGame) : Res XonixGame :=
  '(es, over, msg) ← enemies_loop s (enemies s) (game_over s) (message s);
  Ok (mkGame (grid s) (player_x s) (player_y s) es (trail s) (drawing s)
             (score s) (running s) over (game_won s) msg).

(** ** Reset and input *)

(** The grid comprehension of [reset_game_state] and its two border loops. *)
Definition reset_grid : Res Grid :=
  let g0 := replicate (Z.to_nat GRID_HEIGHT) (replicate (Z.to_nat GRID_WIDTH) EMPTY) in
  g1 ← for_each (λ g x, g' ← grid_set g x 0 BORDER;
                        grid_set g' x (GRID_HEIGHT - 1) BORDER)
                (seqZ 0 GRID_WIDTH) g0;
  for_each (λ g y, g' ← grid_set g 0 y BORDER;
                   grid_set g' (GRID_WIDTH - 1) y BORDER)
           (seqZ 0 GRID_HEIGHT) g1.

(** One enemy's four random draws: the two [randint] results and the two
    [choice([-2, 2])] results. *)
Record Draw := mkDraw { d_x : Z; d_y : Z; d_vx : Z; d_vy : Z }.

Definition valid_draw (d : Draw) : Prop :=
  GRID_WIDTH / 4 ≤ d_x d ≤ 3 * GRID_WIDTH / 4 ∧
  GRID_HEIGHT / 4 ≤ d_y d ≤ 3 * GRID_HEIGHT / 4 ∧
  (d_vx d = -2 ∨ d_vx d = 2) ∧ (d_vy d = -2 ∨ d_vy d = 2).

Definition valid_draws (ds : list Draw) : Prop :=
  length ds = INITIAL_ENEMIES ∧ Forall valid_draw ds.

(** [Enemy(x, y, vx, vy)] with the default radius. *)
Definition spawn (d : Draw) : Enemy :=
  mkEnemy (d_x d * GRID_SIZE) (d_y d * GRID_SIZE) (d_vx d) (d_vy d) 8.

Definition reset_game_state (ds : list Draw) (s : XonixGame) : Res XonixGame :=
  g ← reset_grid;
  Ok (mkGame g (GRID_WIDTH / 2) 0 (spawn <$> ds) [] false 0 (running s)
             false false ""%string).

Inductive Key := K_ESCAPE | K_SPACE | K_OTHER.
Inductive Event := QUIT | KEYDOWN (key : Key) | OTHER_EVENT.

Definition handle_input (ds : list Draw) (ev : Event) (s : XonixGame) : Res XonixGame :=
  let stop := mkGame (grid s) (player_x s) (player_y s) (enemies s) (trail s)
                     (drawing s) (score s) false (game_over s) (game_won s)
                     (message s) in
  match ev with
  | QUIT => Ok stop
  | KEYDOWN K_ESCAPE => Ok stop
  | KEYDOWN K_SPACE =>
      if game_over s || game_won s then reset_game_state ds s else Ok s
  | _ => Ok s
  end.

(** ** The states of a run *)

(** What one frame of [run] may do, other than a reset: a movement update
    and, unless the game has ended, an enemy update. *)
Inductive session_step : XonixGame → XonixGame → Prop :=
  | step_move keys s s' :
      handle_movement keys s = Ok s' → session_step s s'
  | step_enemies s s' :
      game_over s = false → game_won s = false →
      update_enemies s = Ok s' → session_step s s'.

(** The states [run] can reach: after the initial reset, any interleaving
    of input events (with fresh random draws for a restart) and frame
    updates. *)
Inductive reachable : XonixGame → Prop :=
  | reach_reset ds s0 s :
      valid_draws ds → reset_game_state ds s0 = Ok s → reachable s
  | reach_input ds ev s s' :
      reachable s → valid_draws ds → handle_input ds ev s = Ok s' → reachable s'
  | reach_step s s' :
      reachable s → session_step s s' → reachable s'.

(** ** Vocabulary of the properties *)

(** Board coordinates, and the coordinates inside the outer ring. *)
Definition inb (p : Pos) : Prop :=
  0 ≤ p.1 < GRID_WIDTH ∧ 0 ≤ p.2 < GRID_HEIGHT.

Definition interior (p : Pos) : Prop :=
  1 ≤ p.1 < GRID_WIDTH - 1 ∧ 1 ≤ p.2 < GRID_HEIGHT - 1.

#[global] Instance inb_dec p : Decision (inb p).
Proof. unfold inb. apply _. Defined.
#[global] Instance interior_dec p : Decision (interior p).
Proof. unfold interior. apply _. Defined.

(** The value stored at column [p.1] of row [p.2], if the lists are that long. *)
Definition stored (g : Grid) (p : Pos) : option Cell :=
  row ← g !! Z.to_nat p.2; row !! Z.to_nat p.1.

Definition cell (g : Grid) (p : Pos) : Cell := default BORDER (stored g p).

(** The grid after [grid[p.2][p.1] = v] for a board coordinate [p]. *)
Definition upd (g : Grid) (p : Pos) (v : Cell) : Grid :=
  alter (λ row, <[Z.to_nat p.1 := v]> row) (Z.to_nat p.2) g.

(** [GRID_HEIGHT] rows of [GRID_WIDTH] cells, as [reset_game_state] builds. *)
Definition wf_grid (g : Grid) : Prop :=
  length g = Z.to_nat GRID_HEIGHT ∧
  Forall (λ row, length row = Z.to_nat GRID_WIDTH) g.

Definition all_cells : list Pos :=
  y ← seqZ 0 GRID_HEIGHT; (λ x, (x, y)) <$> seqZ 0 GRID_WIDTH.

Definition interior_cells : list Pos :=
  y ← seqZ 1 (GRID_HEIGHT - 2); (λ x, (x, y)) <$> seqZ 1 (GRID_WIDTH - 2).

(** The outer ring holds [BORDER]. *)
Definition ring_border (g : Grid) : Prop :=
  Forall (λ p, interior p ∨ cell g p = BORDER) all_cells.

(** The four neighbours [flood_fill] pushes. *)
Definition adj (p q : Pos) : Prop :=
  q = (p.1 - 1, p.2) ∨ q = (p.1 + 1, p.2) ∨ q = (p.1, p.2 - 1) ∨ q = (p.1, p.2 + 1).

Definition empty_at (g : Grid) (p : Pos) : Prop := inb p ∧ cell g p = EMPTY.

(** The cells [flood_fill] can walk to from [s]: 4-connected paths through
    [EMPTY] board cells. *)
Inductive reach (g : Grid) (s : Pos) : Pos → Prop :=
  | reach_start : empty_at g s → reach g s s
  | reach_next q r : reach g s q → adj q r → empty_at g r → reach g s r.

(** The region of [s]: the maximal 4-connected set of [EMPTY] interior
    cells that contains [s]. *)
Inductive region (g : Grid) (s : Pos) : Pos → Prop :=
  | region_start : interior s → cell g s = EMPTY → region g s s
  | region_next q r :
      region g s q → adj q r → interior r → cell g r = EMPTY → region g s r.

(** Some enemy's quantized position lies in the region of [s]. *)
Definition enemy_inside (g : Grid) (es : list Enemy) (s : Pos) : Prop :=
  ∃ e, e ∈ es ∧ region g s (quantize e).

(** ** Invariants used in the proofs *)

(** The loop invariant of [flood_fill], for a start cell [s]. *)
Record flood_inv (g : Grid) (s : Pos) (stack : list Pos)
    (visited : gset Pos) (area : list Pos) : Prop := {
  fi_sound : ∀ v, v ∈ visited → reach g s v;
  fi_stack : ∀ q, q ∈ stack → q = s ∨ ∃ v, v ∈ visited ∧ adj v q;
  fi_closed : ∀ v q, v ∈ visited → adj v q → empty_at g q →
              q ∈ visited ∨ q ∈ stack;
  fi_start : s ∈ visited ∨ s ∈ stack;
  fi_area : ∀ p, p ∈ area ↔ p ∈ visited;
  fi_nodup : NoDup area
}.


(** Some enemy's quantized position can be walked to from [s]. *)
Definition enemy_reach (g : Grid) (es : list Enemy) (s : Pos) : Prop :=
  ∃ e, e ∈ es ∧ reach g s (quantize e).

(** The invariant of the scan of [claim_territory]: [g1] is the grid once
    the trail is marked, [gk] the grid at some point of the scan. *)
Record scan_inv (g1 : Grid) (es : list Enemy) (gk : Grid) : Prop := {
  si_wf : wf_grid gk;
  si_solid : ∀ p, inb p → cell g1 p ≠ EMPTY → cell gk p = cell g1 p;
  si_empty : ∀ p, inb p → cell g1 p = EMPTY →
             cell gk p = EMPTY ∨ (cell gk p = CLAIMED ∧ ¬ enemy_reach g1 es p);
  si_uniform : ∀ p q, reach g1 p q → cell gk p = cell gk q
}.

(** Claimed cells stay claimed. *)
Definition scan_le (ga gb : Grid) : Prop :=
  ∀ p, inb p → cell ga p = CLAIMED → cell gb p = CLAIMED.

(** The scan has dealt with the cell [p]. *)
Definition scan_done (g1 : Grid) (es : list Enemy) (p : Pos) (gk : Grid) : Prop :=
  inb p → cell g1 p = EMPTY → ¬ enemy_reach g1 es p → cell gk p = CLAIMED.

#[global] Instance wf_grid_dec g : Decision (wf_grid g).
Proof. unfold wf_grid. apply _. Defined.
#[global] Instance ring_border_dec g : Decision (ring_border g).
Proof. unfold ring_border. apply _. Defined.

(** ** Example boards *)

(** A board whose ring is [BORDER] and whose interior cells all hold [c]. *)
Definition ring_board (c : Cell) : Grid :=
  let w := Z.to_nat GRID_WIDTH in
  let h := Z.to_nat GRID_HEIGHT in
  let ring_row := replicate w BORDER in
  let inner_row := BORDER :: replicate (w - 2) c ++ [BORDER] in
  ring_row :: replicate (h - 2) inner_row ++ [ring_row].

(** The board [reset_game_state] builds. *)
Definition fresh_board : Grid := ring_board EMPTY.

(** A board late in a game: the whole interior is [CLAIMED], except for the
    cells of [holes], which are [EMPTY]. *)
Definition claimed_board : Grid := ring_board CLAIMED.

Definition board_with_holes (holes : list Pos) : Grid :=
  foldr (λ p g, upd g p EMPTY) claimed_board holes.

(** Three [EMPTY] cells in the top-left corner of the interior; the player
    has drawn a trail on the third and is about to step down onto claimed
    ground, while an enemy sits over the first. *)
Definition corner_board : Grid := board_with_holes [(1, 1); (2, 1); (3, 1)].
Definition corner_trail : list Pos := [(3, 1)].
Definition corner_enemy : Enemy := mkEnemy 15 15 2 2 8.

(** ** Counting *)

(** How many of the given cell states are [CLAIMED] or [BORDER]. *)
Definition tally (cs : list Cell) : Z :=
  Z.of_nat (length (filter (λ c, border_or_claimed c = true) cs)).

(** The percentage as the specification words it: the interior is what is
    left of the grid when the first and last row and the first and last
    column are taken away; the percentage is the share of [CLAIMED] or
    [BORDER] states among the interior cells, times 100. *)
Definition strip_ends {A : Type} (l : list A) : list A :=
  drop 1 (take (length l - 1) l).

Definition interior_states (g : Grid) : list Cell :=
  concat (strip_ends <$> strip_ends g).

Definition spec_claimed_percentage (g : Grid) : Q :=
  (inject_Z (tally (interior_states g))
   / inject_Z (Z.of_nat (length (interior_states g))) * 100)%Q.

(** ** Game states *)

(** The attributes as [__init__] sets them. *)
Definition init_game : XonixGame :=
  mkGame [] 0 0 [] [] false 0 true false false "".

(** What every state of a run satisfies. *)
Record game_inv (s : XonixGame) : Prop := {
  gi_wf : wf_grid (grid s);
  gi_ring : ring_border (grid s);
  gi_no_trail : ∀ p, inb p → cell (grid s) p ≠ TRAIL;
  gi_trail : Forall (λ p, inb p ∧ cell (grid s) p = EMPTY) (trail s)
}.

(** Three draws a reset may make. *)
Definition demo_draws : list Draw :=
  [mkDraw 20 15 2 2; mkDraw 35 25 (-2) 2; mkDraw 50 30 2 (-2)].

(** The state after the initial reset with [demo_draws], and after the
    player then steps down from the border into the empty interior. *)
Definition demo_start : XonixGame :=
  mkGame fresh_board 35 0 (spawn <$> demo_draws) [] false 0 true false false "".
Definition demo_drawing : XonixGame :=
  mkGame fresh_board 35 1 (spawn <$> demo_draws) [(35, 1)] true 0 true false false "".

Definition no_keys : Keys := mkKeys false false false false.
Definition key_up : Keys := mkKeys true false false false.
Definition key_down : Keys := mkKeys false true false false.
Definition key_left : Keys := mkKeys false false true false.
Definition key_right : Keys := mkKeys false false false true.

(** The player has drawn two cells down from the border. *)
Definition demo_two_cells : XonixGame :=
  mkGame fresh_board 35 2 (spawn <$> demo_draws) [(35, 1); (35, 2)] true 0
         true false false "".

(** The corner board with the player at the end of its one-cell trail. *)
Definition corner_game : XonixGame :=
  mkGame corner_board 3 1 [corner_enemy] corner_trail true 0 true false false "".

(** ** The flood-fill runs of one claiming pass *)

(** What one call of [flood_fill] returned: the area and [has_enemy]. *)
Abbreviation Run := (list Pos * bool)%type.

(** [claim_cell] with a record of the [flood_fill] call it makes, if any.
    The grid component is computed exactly as in [claim_cell]
    ([claim_territory_log_grid]). *)
Definition claim_cell_log (es : list Enemy) (y : Z) (acc : Grid * list Run) (x : Z)
    : Res (Grid * list Run) :=
  c ← grid_get acc.1 x y;
  if bool_decide (c = EMPTY) then
    '(area, has_enemy) ← flood_fill acc.1 es x y;
    g' ← (if negb has_enemy && bool_decide (area ≠ []) then claim_area acc.1 area
          else Ok acc.1);
    Ok (g', acc.2 ++ [(area, has_enemy)])
  else Ok acc.

Definition claim_row_log (es : list Enemy) (acc : Grid * list Run) (y : Z)
    : Res (Grid * list Run) :=
  for_each (claim_cell_log es y) (seqZ 1 (GRID_WIDTH - 2)) acc.

Definition claim_scan_log (es : list Enemy) (g : Grid) : Res (Grid * list Run) :=
  for_each (claim_row_log es) (seqZ 1 (GRID_HEIGHT - 2)) (g, []).

Definition claim_territory_log (g : Grid) (tr : list Pos) (es : list Enemy)
    : Res (Grid * list Run) :=
  g1 ← mark_trail g tr; claim_scan_log es g1.

(** The cells of all runs of a pass, run after run. *)
Definition visited_cells (log : list Run) : list Pos := log ≫= fst.

(** The cells of the runs that found no enemy, and so were claimed. *)
Definition claimed_cells (log : list Run) : list Pos :=
  filter (λ r : Run, r.2 = false) log ≫= fst.

(** No cell is visited by two runs, or twice by one. *)
Definition runs_disjoint (log : list Run) : Prop := NoDup (visited_cells log).

Record log_inv (g1 : Grid) (es : list Enemy) (gk : Grid) (log : list Run) : Prop := {
  li_runs : ∀ r, r ∈ log →
      NoDup r.1 ∧
      ∃ s, empty_at g1 s ∧ (∀ q, q ∈ r.1 ↔ reach g1 s q) ∧
           (r.2 = true ↔ enemy_reach g1 es s);
  li_nodup : NoDup (claimed_cells log);
  li_claimed : ∀ p, inb p →
      (cell g1 p = EMPTY ∧ cell gk p = CLAIMED) ↔ p ∈ claimed_cells log
}.

(** An enemy about to enter the claimed cell [(1, 2)] of the corner board. *)
Definition incoming_enemy : Enemy := mkEnemy 12 25 (-2) 2 8.

(** The corner board after the closure of [corner_trail] while the enemy
    sits in the corner: the trail cell is [BORDER], the two cells next to
    the enemy are still [EMPTY]. *)
Definition corner_after : Grid :=
  upd (board_with_holes [(1, 1); (2, 1)]) (3, 1) BORDER.

(** ** The trail as a path *)

(** Consecutive coordinates of the list are 4-neighbours. *)
Definition path (tr : list Pos) : Prop :=
  ∀ i p q, tr !! i = Some p → tr !! S i = Some q → adj p q.

(** How player, trail and drawing flag hang together, and what the status
    fields can hold, in every state of a run. *)
Record walk_inv (s : XonixGame) : Prop := {
  wi_nodup : NoDup (trail s);
  wi_path : path (trail s);
  wi_drawing : drawing s = true ↔ trail s ≠ [];
  wi_head : drawing s = true → last (trail s) = Some (player_x s, player_y s);
  wi_player : inb (player_x s, player_y s);
  wi_safe : drawing s = false →
            border_or_claimed (cell (grid s) (player_x s, player_y s)) = true;
  wi_message : message s ≠ "Enemy hit you!"%string;
  wi_score : ∃ q, calculate_percentage (grid s) = Ok q ∧ (q == score s)%Q;
  wi_won : game_won s = true ↔ (TARGET_PERCENTAGE <= score s)%Q
}.

(** ** The enemy loop of the older version *)

(** The enemy loop inside [run] of the single-function version of the game
    ([games/xonix/game.py]).  It moves and bounces an enemy as
    [update_enemies] does; its [break] only leaves the loop over the trail
    cells, so the player test still runs and the remaining enemies are
    still updated. *)
Fixpoint legacy_enemies_loop (s : XonixGame) (es : list Enemy) (over : bool)
    (msg : string) : Res (list Enemy * bool * string) :=
  match es with
  | [] => Ok ([], over, msg)
  | e :: es' =>
    e' ← bounce_enemy (grid s) e;
    let '(over1, msg1) :=
      if drawing s && _enemy_hits_trail (trail s) e'
      then (true, "Enemy hit your trail!"%string) else (over, msg) in
    let '(over2, msg2) :=
      if drawing s && _enemy_hits_player (player_x s) (player_y s) e'
      then (true, "Enemy hit you!"%string) else (over1, msg1) in
    '(es'', over'', msg'') ← legacy_enemies_loop s es' over2 msg2;
    Ok (e' :: es'', over'', msg'')
  end.

(** A state no run reaches: drawing, but with the player away from the
    trail, and an enemy about to pass over the player. *)
Definition stray_player : XonixGame :=
  mkGame fresh_board 30 30 [mkEnemy 298 298 2 2 8] [(10, 10)] true 0
         true false false "".

(** A lost game: the player of [demo_two_cells] has run into the trail. *)
Definition demo_lost : XonixGame :=
  set_game_over demo_two_cells "Hit your own trail!".

(** The player has just stepped onto [(35, 1)] and an enemy arrives at that
    very cell. *)
Definition demo_under_attack : XonixGame :=
  mkGame fresh_board 35 1 [mkEnemy 348 8 2 2 8] [(35, 1)] true 0
         true false false "".

(** What [reset_game_state] gives every enemy and [update_enemies] keeps:
    radius 8, speed 2 on each axis, even pixel coordinates. *)
Definition enemy_ok (e : Enemy) : Prop :=
  e_radius e = 8 ∧ Z.abs (e_vx e) = 2 ∧ Z.abs (e_vy e) = 2 ∧
  (e_x e) `mod` 2 = 0 ∧ (e_y e) `mod` 2 = 0.
(** ** Basic facts: subscripts and grid access *)

Lemma GRID_WIDTH_val : GRID_WIDTH = 70.
Proof. reflexivity. Qed.
Lemma GRID_HEIGHT_val : GRID_HEIGHT = 50.
Proof. reflexivity. Qed.
Lemma GRID_SIZE_val : GRID_SIZE = 10.
Proof. reflexivity. Qed.

#[global] Opaque GRID_WIDTH GRID_HEIGHT GRID_SIZE.
#[global] Opaque ring_board fresh_board claimed_board corner_board.

Ltac dims := pose proof GRID_WIDTH_val; pose proof GRID_HEIGHT_val;
             pose proof GRID_SIZE_val.

(** Settles a decidable fact about concrete data by evaluation. *)
Ltac by_eval :=
  match goal with
  | |- ?P => apply (bool_decide_unpack P); vm_compute; exact I
  end.

Lemma in_bounds_true x y : in_bounds x y = true ↔ inb (x, y).
Proof.
  unfold in_bounds, inb. rewrite andb_true_iff, !bool_decide_eq_true. done.
Qed.

Lemma in_bounds_false x y : in_bounds x y = false ↔ ¬ inb (x, y).
Proof. rewrite <- in_bounds_true. destruct (in_bounds x y); naive_solver. Qed.

Lemma interior_inb p : interior p → inb p.
Proof. unfold interior, inb. lia. Qed.

Lemma py_index_nonneg n i :
  0 ≤ i < Z.of_nat n → py_index n i = Ok (Z.to_nat i).
Proof. intros. unfold py_index. by rewrite bool_decide_eq_true_2. Qed.

Lemma py_getitem_nonneg {A} (l : list A) i v :
  0 ≤ i → l !! Z.to_nat i = Some v → py_getitem l i = Ok v.
Proof.
  intros Hi Hl. unfold py_getitem.
  apply lookup_lt_Some in Hl as Hlt.
  rewrite py_index_nonneg by lia. simpl. by rewrite Hl.
Qed.

Lemma wf_row g p :
  wf_grid g → inb p →
  ∃ row, g !! Z.to_nat p.2 = Some row ∧ length row = Z.to_nat GRID_WIDTH.
Proof.
  intros [Hlen Hrows] [_ Hy].
  destruct (lookup_lt_is_Some_2 g (Z.to_nat p.2)) as [row Hrow]; [lia|].
  exists row. split; [done|].
  by apply (Forall_lookup_1 _ _ _ _ Hrows Hrow).
Qed.

Lemma stored_inb g p : wf_grid g → inb p → stored g p = Some (cell g p).
Proof.
  intros Hwf Hp. destruct (wf_row g p Hwf Hp) as (row & Hrow & Hlen).
  unfold cell, stored. rewrite Hrow. simpl.
  destruct (lookup_lt_is_Some_2 row (Z.to_nat p.1)) as [c Hc].
  { destruct Hp. lia. }
  by rewrite Hc.
Qed.

Lemma grid_get_inb g x y :
  wf_grid g → inb (x, y) → grid_get g x y = Ok (cell g (x, y)).
Proof.
  intros Hwf Hp. pose proof (stored_inb g _ Hwf Hp) as Hs.
  unfold stored in Hs. simpl in Hs.
  destruct (g !! Z.to_nat y) as [row|] eqn:Hrow; [|done]. simpl in Hs.
  destruct Hp as [Hx Hy]. simpl in *.
  unfold grid_get. rewrite (py_getitem_nonneg g y row); [|lia|done].
  simpl. apply py_getitem_nonneg; [lia|done].
Qed.

Lemma grid_set_inb g x y v :
  wf_grid g → inb (x, y) → grid_set g x y v = Ok (upd g (x, y) v).
Proof.
  intros Hwf Hp. destruct (wf_row g _ Hwf Hp) as (row & Hrow & Hlen).
  destruct Hp as [Hx Hy]. simpl in *.
  unfold grid_set. rewrite (py_getitem_nonneg g y row); [|lia|done]. simpl.
  apply lookup_lt_Some in Hrow as Hlt.
  unfold py_setitem. rewrite !py_index_nonneg by lia. simpl. f_equal.
  unfold upd. simpl. symmetry. apply list_eq. intros i.
  destruct (decide (i = Z.to_nat y)) as [->|Hne].
  - rewrite list_lookup_alter_eq, list_lookup_insert_eq by done. by rewrite Hrow.
  - by rewrite list_lookup_alter_ne, list_lookup_insert_ne by done.
Qed.

Lemma wf_upd g p v : wf_grid g → wf_grid (upd g p v).
Proof.
  intros [Hlen Hrows]. split.
  - unfold upd. by rewrite length_alter.
  - unfold upd. apply Forall_alter; [done|]. intros row _ Hrow.
    by rewrite length_insert.
Qed.

Lemma cell_upd_eq g p v : wf_grid g → inb p → cell (upd g p v) p = v.
Proof.
  intros Hwf Hp. destruct (wf_row g _ Hwf Hp) as (row & Hrow & Hlen).
  unfold cell, stored, upd. rewrite list_lookup_alter_eq, Hrow. simpl.
  rewrite list_lookup_insert_eq; [done|]. destruct Hp. lia.
Qed.

Lemma cell_upd_ne g p q v : inb p → inb q → p ≠ q → cell (upd g p v) q = cell g q.
Proof.
  intros [Hp1 Hp2] [Hq1 Hq2] Hne. unfold cell, stored, upd.
  destruct (decide (Z.to_nat p.2 = Z.to_nat q.2)) as [He|Hy].
  - rewrite <- He, list_lookup_alter_eq.
    destruct (g !! Z.to_nat p.2) as [row|]; [|done]. simpl.
    rewrite list_lookup_insert_ne; [done|].
    intros Hx. apply Hne. destruct p, q. simpl in *. f_equal; lia.
  - by rewrite list_lookup_alter_ne.
Qed.

Lemma cell_upd g p q v :
  wf_grid g → inb p → inb q →
  cell (upd g p v) q = if decide (q = p) then v else cell g q.
Proof.
  intros. case_decide as Hq.
  - subst. by apply cell_upd_eq.
  - by apply cell_upd_ne.
Qed.

(** ** Loops *)

(** Invariant rule for [for_each]: [I] is kept by every iteration, [R]
    relates the accumulator before and after, and [D b] records what the
    iteration at [b] establishes and later iterations keep. *)
Lemma for_each_inv {A B : Type} (I : A → Prop) (R : A → A → Prop)
    (D : B → A → Prop) (f : A → B → Res A) (l : list B) :
  (∀ a, R a a) →
  (∀ a b c, R a b → R b c → R a c) →
  (∀ a a' b, I a → I a' → R a a' → D b a → D b a') →
  (∀ a b, b ∈ l → I a → ∃ a', f a b = Ok a' ∧ I a' ∧ R a a' ∧ D b a') →
  ∀ a, I a →
  ∃ a', for_each f l a = Ok a' ∧ I a' ∧ R a a' ∧ ∀ b, b ∈ l → D b a'.
Proof.
  intros Hrefl Htrans Hkeep. induction l as [|b l IH]; intros Hstep a Ha.
  - exists a. repeat split; [done|done|]. intros b Hb. by apply elem_of_nil in Hb.
  - destruct (Hstep a b) as (a1 & Hf & Ha1 & HR1 & HD1); [left|done|].
    destruct (IH (λ a0 b0 Hb0, Hstep a0 b0 (list_elem_of_further _ _ _ Hb0)) a1 Ha1)
      as (a2 & Hl & Ha2 & HR2 & HD2).
    exists a2. simpl. rewrite Hf. simpl. repeat split; [done|done|by eauto|].
    intros b' Hb'. apply elem_of_cons in Hb' as [->|Hb']; [|by auto].
    by apply (Hkeep a1 a2).
Qed.

(** ** Board coordinates *)

Lemma elem_of_all_cells p : p ∈ all_cells ↔ inb p.
Proof.
  unfold all_cells, inb. rewrite list_elem_of_bind. split.
  - intros (y & Hp & Hy). apply list_elem_of_fmap in Hp as (x & -> & Hx).
    apply elem_of_seqZ in Hx, Hy. simpl. lia.
  - intros [Hx Hy]. exists p.2. split.
    + apply list_elem_of_fmap. exists p.1. split; [by destruct p|].
      apply elem_of_seqZ. lia.
    + apply elem_of_seqZ. lia.
Qed.

Lemma elem_of_interior_cells p : p ∈ interior_cells ↔ interior p.
Proof.
  unfold interior_cells, interior. rewrite list_elem_of_bind. split.
  - intros (y & Hp & Hy). apply list_elem_of_fmap in Hp as (x & -> & Hx).
    apply elem_of_seqZ in Hx, Hy. simpl. lia.
  - intros [Hx Hy]. exists p.2. split.
    + apply list_elem_of_fmap. exists p.1. split; [by destruct p|].
      apply elem_of_seqZ. lia.
    + apply elem_of_seqZ. lia.
Qed.

Lemma length_bind_const {A B} (f : A → list B) (l : list A) k :
  (∀ a, length (f a) = k) → length (l ≫= f) = (length l * k)%nat.
Proof.
  intros Hf. induction l as [|a l IH]; [done|].
  change ((a :: l) ≫= f) with (f a ++ l ≫= f).
  rewrite length_app, Hf, IH. simpl. lia.
Qed.

Lemma length_all_cells :
  length all_cells = (Z.to_nat GRID_HEIGHT * Z.to_nat GRID_WIDTH)%nat.
Proof.
  unfold all_cells.
  rewrite (length_bind_const _ _ (Z.to_nat GRID_WIDTH)).
  - by rewrite length_seqZ.
  - intros y. by rewrite length_fmap, length_seqZ.
Qed.

Lemma ring_border_spec g p :
  ring_border g → inb p → ¬ interior p → cell g p = BORDER.
Proof.
  intros Hring Hp Hni. unfold ring_border in Hring.
  rewrite Forall_forall in Hring.
  destruct (Hring p) as [?|?]; [by apply elem_of_all_cells|done|done].
Qed.

(** ** Connectivity *)

Lemma adj_sym p q : adj p q → adj q p.
Proof.
  destruct p as [px py], q as [qx qy]. unfold adj. simpl.
  intros [H|[H|[H|H]]]; inversion H; subst.
  - right; left. f_equal; lia.
  - left. f_equal; lia.
  - do 3 right. f_equal; lia.
  - do 2 right; left. f_equal; lia.
Qed.

Lemma reach_empty_end g s q : reach g s q → empty_at g q.
Proof. by destruct 1. Qed.

Lemma reach_empty_start g s q : reach g s q → empty_at g s.
Proof. induction 1; done. Qed.

Lemma reach_trans g s q r : reach g s q → reach g q r → reach g s r.
Proof.
  intros Hsq. induction 1 as [|q' r' _ IH Hadj He]; [done|].
  by eapply reach_next.
Qed.

Lemma reach_sym g s q : reach g s q → reach g q s.
Proof.
  induction 1 as [Hs|q r Hsq IH Hadj He].
  - by apply reach_start.
  - apply reach_trans with q; [|done].
    eapply reach_next; [by apply reach_start| by apply adj_sym |].
    by eapply reach_empty_end.
Qed.

Lemma region_reach g s q : region g s q → reach g s q.
Proof.
  induction 1 as [Hs Hc|q r _ IH Hadj Hr Hc].
  - apply reach_start. split; [by apply interior_inb|done].
  - eapply reach_next; [done|done|]. split; [by apply interior_inb|done].
Qed.

Lemma empty_interior g p : ring_border g → empty_at g p → interior p.
Proof.
  intros Hring [Hp Hc]. destruct (decide (interior p)) as [|Hni]; [done|].
  rewrite (ring_border_spec g p Hring Hp Hni) in Hc. done.
Qed.

Lemma reach_region g s q : ring_border g → reach g s q → region g s q.
Proof.
  intros Hring. induction 1 as [Hs|q r _ IH Hadj He].
  - apply region_start; [by eapply empty_interior|by destruct Hs].
  - eapply region_next; [done|done|by eapply empty_interior|by destruct He].
Qed.

(** ** Flood fill computes the connected set of its start cell *)

Lemma flood_inv_init g s : flood_inv g s [s] ∅ [].
Proof.
  split.
  - set_solver.
  - intros q Hq. left. by apply list_elem_of_singleton in Hq.
  - set_solver.
  - right. by left.
  - intros p. split; [by intros ?%elem_of_nil|set_solver].
  - constructor.
Qed.

Lemma flood_inv_skip g s p stack visited area :
  flood_inv g s (p :: stack) visited area →
  p ∈ visited ∨ ¬ empty_at g p → empty_at g s →
  flood_inv g s stack visited area.
Proof.
  intros [Hsound Hstack Hclosed Hstart Harea Hnd] Hp Hs. split; try done.
  - intros q Hq. apply Hstack. by right.
  - intros v q Hv Hadj He. destruct (Hclosed v q Hv Hadj He) as [?|Hq]; [by left|].
    apply elem_of_cons in Hq as [->|?]; [|by right].
    destruct Hp; [by left|done].
  - destruct Hstart as [?|Hq]; [by left|].
    apply elem_of_cons in Hq as [->|?]; [|by right].
    destruct Hp; [by left|done].
Qed.

Lemma flood_inv_visit g s x y stack visited area :
  flood_inv g s ((x, y) :: stack) visited area →
  (x, y) ∉ visited → empty_at g (x, y) →
  flood_inv g s ((x - 1, y) :: (x + 1, y) :: (x, y - 1) :: (x, y + 1) :: stack)
            (visited ∪ {[ (x, y) ]}) (area ++ [(x, y)]).
Proof.
  intros [Hsound Hstack Hclosed Hstart Harea Hnd] Hnv He. split.
  - intros v Hv. apply elem_of_union in Hv as [Hv|Hv]; [by auto|].
    apply elem_of_singleton in Hv as ->.
    destruct (Hstack (x, y)) as [<-|(v & Hv & Hadj)]; [by left|by apply reach_start|].
    by eapply reach_next; [apply Hsound| |].
  - intros q Hq. rewrite !elem_of_cons in Hq.
    destruct Hq as [->|[->|[->|[->|Hq]]]];
      try (right; exists (x, y); split; [set_solver|unfold adj; simpl; tauto]).
    destruct (Hstack q) as [?|(v & Hv & Hadj)]; [by right|by left|].
    right. exists v. split; [set_solver|done].
  - intros v q Hv Hadj Heq. apply elem_of_union in Hv as [Hv|Hv].
    + destruct (Hclosed v q Hv Hadj Heq) as [?|Hq]; [left; set_solver|].
      apply elem_of_cons in Hq as [->|?]; [left; set_solver|].
      right. by do 4 right.
    + apply elem_of_singleton in Hv as ->. right.
      rewrite !elem_of_cons. unfold adj in Hadj. simpl in Hadj. tauto.
  - destruct Hstart as [?|Hq]; [left; set_solver|].
    apply elem_of_cons in Hq as [->|?]; [left; set_solver|].
    right. by do 4 right.
  - intros p. rewrite elem_of_app, list_elem_of_singleton, Harea. set_solver.
  - apply NoDup_app. split; [done|]. split; [|apply NoDup_singleton].
    intros p Hp ->%list_elem_of_singleton. by apply Hnv, Harea.
Qed.

Lemma flood_inv_area_length g s stack visited area :
  flood_inv g s stack visited area → (length area ≤ length all_cells)%nat.
Proof.
  intros Hinv. apply submseteq_length, NoDup_submseteq; [by destruct Hinv|].
  intros p Hp. apply elem_of_all_cells.
  apply (fi_area _ _ _ _ _ Hinv) in Hp. apply (fi_sound _ _ _ _ _ Hinv) in Hp.
  by destruct (reach_empty_end _ _ _ Hp).
Qed.

Lemma flood_loop_correct g s :
  wf_grid g → empty_at g s →
  ∀ fuel stack visited area,
    flood_inv g s stack visited area →
    (4 * (length all_cells - length area) + length stack ≤ fuel)%nat →
    ∃ visited' area',
      flood_loop fuel g stack visited area = Ok (visited', area') ∧
      flood_inv g s [] visited' area'.
Proof.
  intros Hwf Hs. induction fuel as [|fuel IH]; intros stack visited area Hinv Hfuel.
  - destruct stack as [|[x y] stack]; [|simpl in Hfuel; lia].
    by exists visited, area.
  - destruct stack as [|[x y] stack]; [by exists visited, area|].
    cbn [flood_loop]. simpl in Hfuel.
    case_bool_decide as Hvis.
    { apply IH; [|lia]. eapply flood_inv_skip; [done|by left|done]. }
    destruct (in_bounds x y) eqn:Hin; simpl.
    2:{ apply IH; [|lia]. eapply flood_inv_skip; [done| |done].
        right. intros [Hb _]. by apply in_bounds_false in Hin. }
    apply in_bounds_true in Hin. rewrite grid_get_inb by done. simpl.
    case_bool_decide as Hc.
    { apply IH; [|lia]. eapply flood_inv_skip; [done| |done].
      right. by intros [_ ?]. }
    assert (empty_at g (x, y)) as He.
    { split; [done|]. by destruct (decide (cell g (x, y) = EMPTY)). }
    pose proof (flood_inv_visit _ _ _ _ _ _ _ Hinv Hvis He) as Hinv'.
    apply IH; [done|].
    pose proof (flood_inv_area_length _ _ _ _ _ Hinv') as Hlen.
    rewrite length_app in *. simpl in *. lia.
Qed.

Lemma flood_inv_final g s visited area :
  empty_at g s → flood_inv g s [] visited area →
  ∀ q, q ∈ visited ↔ reach g s q.
Proof.
  intros Hs [Hsound Hstack Hclosed Hstart Harea Hnd] q. split; [by auto|].
  induction 1 as [_|q r _ IH Hadj He].
  - destruct Hstart as [?|?%elem_of_nil]; done.
  - destruct (Hclosed q r IH Hadj He) as [?|?%elem_of_nil]; done.
Qed.

Lemma enemy_in_spec visited es :
  enemy_in visited es = true ↔ ∃ e, e ∈ es ∧ quantize e ∈ visited.
Proof.
  unfold enemy_in. rewrite existsb_exists. split.
  - intros (e & He & Hq). exists e. split; [by apply list_elem_of_In|].
    by apply bool_decide_eq_true in Hq.
  - intros (e & He & Hq). exists e. split; [by apply list_elem_of_In|].
    by apply bool_decide_eq_true.
Qed.

(** [flood_fill] from an [EMPTY] board cell returns, without raising, a
    duplicate-free list of exactly the cells connected to the start, and
    reports whether an enemy's quantized position is one of them. *)
Lemma flood_fill_spec g es x y :
  wf_grid g → empty_at g (x, y) →
  ∃ area has_enemy,
    flood_fill g es x y = Ok (area, has_enemy) ∧
    NoDup area ∧
    (∀ q, q ∈ area ↔ reach g (x, y) q) ∧
    (has_enemy = true ↔ ∃ e, e ∈ es ∧ reach g (x, y) (quantize e)).
Proof.
  intros Hwf Hs.
  destruct (flood_loop_correct g (x, y) Hwf Hs flood_fuel [(x, y)] ∅ [])
    as (visited & area & Hrun & Hinv).
  { apply flood_inv_init. }
  { rewrite length_all_cells. unfold flood_fuel. simpl. dims. lia. }
  pose proof (flood_inv_final _ _ _ _ Hs Hinv) as Hvis.
  exists area, (enemy_in visited es). unfold flood_fill. rewrite Hrun. simpl.
  split; [done|]. split; [by destruct Hinv|]. split.
  - intros q. rewrite <- Hvis. apply (fi_area _ _ _ _ _ Hinv).
  - rewrite enemy_in_spec. by setoid_rewrite Hvis.
Qed.

(** ** Painting a list of cells *)

Lemma paint_spec (v : Cell) (l : list Pos) :
  ∀ g, wf_grid g → Forall inb l →
  ∃ g', for_each (λ g '(x, y), grid_set g x y v) l g = Ok g' ∧ wf_grid g' ∧
        ∀ q, inb q → cell g' q = if decide (q ∈ l) then v else cell g q.
Proof.
  induction l as [|[x y] l IH]; intros g Hwf Hl.
  - exists g. split; [done|]. split; [done|]. intros q _.
    case_decide as Hq; [|done].
    by apply elem_of_nil in Hq.
  - apply Forall_cons in Hl as [Hp Hl].
    destruct (IH (upd g (x, y) v)) as (g' & Hrun & Hwf' & Hcell);
      [by apply wf_upd|done|].
    exists g'. simpl. rewrite grid_set_inb by done. simpl.
    split; [done|]. split; [done|]. intros q Hq.
    rewrite Hcell, cell_upd by done.
    repeat case_decide; try done; set_solver.
Qed.

Lemma mark_trail_spec g tr :
  wf_grid g → Forall inb tr →
  ∃ g1, mark_trail g tr = Ok g1 ∧ wf_grid g1 ∧
        ∀ q, inb q → cell g1 q = if decide (q ∈ tr) then BORDER else cell g q.
Proof. apply paint_spec. Qed.

Lemma claim_area_spec g area :
  wf_grid g → Forall inb area →
  ∃ g', claim_area g area = Ok g' ∧ wf_grid g' ∧
        ∀ q, inb q → cell g' q = if decide (q ∈ area) then CLAIMED else cell g q.
Proof. apply paint_spec. Qed.

(** ** The scan of [claim_territory] *)

Lemma scan_inv_init g1 es : wf_grid g1 → scan_inv g1 es g1.
Proof.
  intros Hwf. split; [done|done|by left|].
  intros p q Hpq. destruct (reach_empty_start _ _ _ Hpq) as [_ ->].
  by destruct (reach_empty_end _ _ _ Hpq) as [_ ->].
Qed.

Lemma scan_inv_empty g1 es gk p :
  scan_inv g1 es gk → empty_at gk p → empty_at g1 p.
Proof.
  intros Hinv [Hp Hc]. split; [done|].
  destruct (decide (cell g1 p = EMPTY)) as [|Hne]; [done|].
  rewrite (si_solid _ _ _ Hinv p Hp Hne) in Hc. done.
Qed.

(** While a cell is still [EMPTY], its connected set is the one it had when
    the scan began. *)
Lemma scan_inv_reach g1 es gk p q :
  scan_inv g1 es gk → empty_at gk p → reach gk p q ↔ reach g1 p q.
Proof.
  intros Hinv Hp. split.
  - induction 1 as [Hs|q r _ IH Hadj He].
    + apply reach_start. by eapply scan_inv_empty.
    + eapply reach_next; [done|done|]. by eapply scan_inv_empty.
  - induction 1 as [Hs|q r Hpq IH Hadj He]; [by apply reach_start|].
    eapply reach_next; [done|done|]. split; [by destruct He|].
    rewrite <- (si_uniform _ _ _ Hinv p r); [by destruct Hp|].
    by eapply reach_next.
Qed.

Lemma enemy_reach_same g es p q :
  reach g p q → enemy_reach g es q → enemy_reach g es p.
Proof.
  intros Hpq (e & He & Hq). exists e. split; [done|]. by eapply reach_trans.
Qed.

(** What one iteration of the scan does at a board cell. *)
Lemma claim_cell_effect g1 es gk x y :
  scan_inv g1 es gk → inb (x, y) →
  (cell gk (x, y) ≠ EMPTY ∧ claim_cell es y gk x = Ok gk) ∨
  (∃ area he gk',
     cell gk (x, y) = EMPTY ∧
     flood_fill gk es x y = Ok (area, he) ∧
     NoDup area ∧
     (∀ q, q ∈ area ↔ reach g1 (x, y) q) ∧
     (he = true ↔ enemy_reach g1 es (x, y)) ∧
     (if negb he && bool_decide (area ≠ []) then claim_area gk area else Ok gk)
       = Ok gk' ∧
     claim_cell es y gk x = Ok gk' ∧
     wf_grid gk' ∧
     ∀ q, inb q →
          cell gk' q = if decide (he = false ∧ q ∈ area) then CLAIMED else cell gk q).
Proof.
  intros Hinv Hp. pose proof (si_wf _ _ _ Hinv) as Hwf.
  unfold claim_cell. rewrite grid_get_inb by done. simpl.
  case_bool_decide as Hc; [right|by left].
  assert (empty_at gk (x, y)) as He by done.
  destruct (flood_fill_spec gk es x y Hwf He)
    as (area & he & -> & Hnd & Harea & Henemy). simpl.
  assert (∀ q, q ∈ area ↔ reach g1 (x, y) q) as Harea1.
  { intros q. rewrite Harea. by eapply scan_inv_reach. }
  assert (he = true ↔ enemy_reach g1 es (x, y)) as Henemy1.
  { rewrite Henemy. unfold enemy_reach.
    by setoid_rewrite (scan_inv_reach g1 es gk (x, y) _ Hinv He). }
  destruct he; simpl.
  { exists area, true, gk. split_and!; try done.
    all: intros q _; rewrite decide_False; [done|]; by intros [? _]. }
  assert (area ≠ []) as Hne.
  { intros ->. eapply elem_of_nil, Harea1. apply reach_start.
    by eapply scan_inv_empty. }
  destruct (claim_area_spec gk area Hwf) as (gk' & Hca & Hwf' & Hcell).
  { apply Forall_forall. intros q Hq%Harea1.
    by destruct (reach_empty_end _ _ _ Hq). }
  exists area, false, gk'. rewrite !bool_decide_eq_true_2 by done.
  cbn [negb andb]. split_and!; try done.
  intros q Hq. rewrite Hcell by done. repeat case_decide; naive_solver.
Qed.

Lemma claim_cell_step g1 es gk x y :
  scan_inv g1 es gk → inb (x, y) →
  ∃ gk', claim_cell es y gk x = Ok gk' ∧ scan_inv g1 es gk' ∧
         scan_le gk gk' ∧ scan_done g1 es (x, y) gk'.
Proof.
  intros Hinv Hp.
  destruct (claim_cell_effect g1 es gk x y Hinv Hp)
    as [[Hc Hrun]|(area & he & gk' & Hc & _ & _ & Harea1 & Henemy1 & _ & Hrun & Hwf' & Hcell)].
  { exists gk. split; [done|]. split; [done|]. split; [by intros ?|].
    intros _ H1 Hne.
    destruct (si_empty _ _ _ Hinv _ Hp H1) as [?|[? _]]; done. }
  exists gk'. split; [done|].
  assert (empty_at g1 (x, y)) as He1 by (by eapply scan_inv_empty).
  destruct he.
  { assert (∀ q, inb q → cell gk' q = cell gk q) as Hsame.
    { intros q Hq. rewrite Hcell by done. rewrite decide_False; [done|]. by intros [? _]. }
    split; [|split].
    - split; [done|..].
      + intros p Hpb ?. rewrite Hsame by done. by apply (si_solid _ _ _ Hinv).
      + intros p Hpb ?. rewrite Hsame by done. by apply (si_empty _ _ _ Hinv).
      + intros p q Hpq.
        pose proof (reach_empty_start _ _ _ Hpq) as [Hpb _].
        pose proof (reach_empty_end _ _ _ Hpq) as [Hqb _].
        rewrite !Hsame by done. by apply (si_uniform _ _ _ Hinv).
    - intros p Hpb. by rewrite Hsame.
    - intros _ _ Hne. destruct Hne. by apply Henemy1. }
  assert (¬ enemy_reach g1 es (x, y)) as Hfree.
  { intros H. by apply Henemy1 in H. }
  assert (∀ q, inb q → cell gk' q = if decide (q ∈ area) then CLAIMED else cell gk q)
    as Hcell'.
  { intros q Hq. rewrite Hcell by done. repeat case_decide; naive_solver. }
  clear Hcell. split; [|split].
  - split; [done|..].
    + intros p Hpb Hsolid. rewrite Hcell' by done. case_decide as Hin.
      * apply Harea1 in Hin. by destruct (reach_empty_end _ _ _ Hin).
      * by apply (si_solid _ _ _ Hinv).
    + intros p Hpb Hempty. rewrite Hcell' by done. case_decide as Hin.
      * right. split; [done|]. intros Hen. apply Hfree.
        eapply enemy_reach_same; [|done]. by apply Harea1.
      * by apply (si_empty _ _ _ Hinv).
    + intros p q Hpq.
      pose proof (reach_empty_start _ _ _ Hpq) as [Hpb _].
      pose proof (reach_empty_end _ _ _ Hpq) as [Hqb _].
      rewrite !Hcell' by done.
      destruct (decide (p ∈ area)) as [Hin|Hin], (decide (q ∈ area)) as [Hin'|Hin'].
      * done.
      * destruct Hin'. apply Harea1. eapply reach_trans; [|done]. by apply Harea1.
      * destruct Hin. apply Harea1. eapply reach_trans; [by apply Harea1|].
        by apply reach_sym.
      * by apply (si_uniform _ _ _ Hinv).
  - intros p Hpb Hcl. rewrite Hcell' by done. by case_decide.
  - intros _ _ _. rewrite Hcell' by done. rewrite decide_True; [done|].
    by apply Harea1, reach_start.
Qed.

Lemma scan_le_refl g : scan_le g g.
Proof. by intros p. Qed.

Lemma scan_le_trans ga gb gc : scan_le ga gb → scan_le gb gc → scan_le ga gc.
Proof. intros Hab Hbc p Hp Hc. by apply Hbc, Hab. Qed.

Lemma claim_row_step g1 es gk y :
  scan_inv g1 es gk → 0 ≤ y < GRID_HEIGHT →
  ∃ gk', claim_row es gk y = Ok gk' ∧ scan_inv g1 es gk' ∧ scan_le gk gk' ∧
         ∀ x, x ∈ seqZ 1 (GRID_WIDTH - 2) → scan_done g1 es (x, y) gk'.
Proof.
  intros Hinv Hy. unfold claim_row.
  apply (for_each_inv (scan_inv g1 es) scan_le (λ x gk, scan_done g1 es (x, y) gk));
    [apply scan_le_refl|apply scan_le_trans| | |done].
  - intros a a' x _ _ Hle Hd Hp He Hfree. apply Hle; [done|]. by apply Hd.
  - intros a x Hx Ha. apply claim_cell_step; [done|].
    apply elem_of_seqZ in Hx. split; simpl; lia.
Qed.

Lemma claim_scan_spec g1 es :
  wf_grid g1 →
  ∃ g', claim_scan es g1 = Ok g' ∧ scan_inv g1 es g' ∧ scan_le g1 g' ∧
        ∀ p, interior p → scan_done g1 es p g'.
Proof.
  intros Hwf. unfold claim_scan.
  destruct (for_each_inv (scan_inv g1 es) scan_le
              (λ y gk, ∀ x, x ∈ seqZ 1 (GRID_WIDTH - 2) → scan_done g1 es (x, y) gk)
              (claim_row es) (seqZ 1 (GRID_HEIGHT - 2)))
    with (a := g1) as (g' & Hrun & Hinv & Hle & Hdone);
    [apply scan_le_refl|apply scan_le_trans| | |by apply scan_inv_init|].
  - intros a a' y _ _ Hle Hd x Hx Hp He Hfree. apply Hle; [done|]. by apply Hd.
  - intros a y Hy Ha. apply claim_row_step; [done|].
    apply elem_of_seqZ in Hy. lia.
  - exists g'. split; [done|]. split; [done|]. split; [done|].
    intros [x y] [Hx Hy].
    simpl in *. apply Hdone; apply elem_of_seqZ; lia.
Qed.

(** ** C1: which regions a closure claims *)

Lemma ring_border_mark (g g1 : Grid) (tr : list Pos) :
  ring_border g →
  (∀ q, inb q → cell g1 q = if decide (q ∈ tr) then BORDER else cell g q) →
  ring_border g1.
Proof.
  unfold ring_border. rewrite !Forall_forall. intros Hring Hcell p Hp.
  destruct (Hring p Hp) as [?|Hb]; [by left|]. right.
  rewrite Hcell by by apply elem_of_all_cells. by case_decide.
Qed.

Lemma enemy_inside_reach g es s :
  ring_border g → enemy_inside g es s ↔ enemy_reach g es s.
Proof.
  intros Hring. unfold enemy_inside, enemy_reach. split.
  - intros (e & He & Hr). exists e. split; [done|]. by apply region_reach.
  - intros (e & He & Hr). exists e. split; [done|]. by apply reach_region.
Qed.

(** C1.  Once the trail cells are marked [BORDER] (grid [g1]), the pass
    ends without raising and, for every [EMPTY] interior cell [s], the whole
    region of [s] is [CLAIMED] in the final grid exactly when no enemy's
    quantized position lies in that region; a region that holds such a
    position is left entirely [EMPTY]. *)
Theorem claim_territory_regions g tr es :
  wf_grid g → ring_border g → Forall inb tr →
  ∃ g1 g',
    mark_trail g tr = Ok g1 ∧
    claim_territory g tr es = Ok g' ∧
    (∀ p, p ∈ tr → cell g1 p = BORDER) ∧
    ∀ s, interior s → cell g1 s = EMPTY →
      ((∀ q, region g1 s q → cell g' q = CLAIMED) ↔ ¬ enemy_inside g1 es s) ∧
      (enemy_inside g1 es s → ∀ q, region g1 s q → cell g' q = EMPTY).
Proof.
  intros Hwf Hring Htr.
  destruct (mark_trail_spec g tr Hwf Htr) as (g1 & Hmark & Hwf1 & Hcell1).
  destruct (claim_scan_spec g1 es Hwf1) as (g' & Hscan & Hinv & _ & Hdone).
  pose proof (ring_border_mark g g1 tr Hring Hcell1) as Hring1.
  exists g1, g'. split; [done|]. split.
  { unfold claim_territory. rewrite Hmark. done. }
  split.
  { intros p Hp. rewrite Hcell1; [by rewrite decide_True|].
    by apply (proj1 (Forall_forall _ _) Htr). }
  intros s Hs Hc.
  assert (∀ q, region g1 s q → cell g' q = cell g' s) as Hsame.
  { intros q Hq. symmetry. apply (si_uniform _ _ _ Hinv). by apply region_reach. }
  assert (enemy_inside g1 es s → cell g' s = EMPTY) as Hkept.
  { intros Hen%enemy_inside_reach; [|done].
    destruct (si_empty _ _ _ Hinv s) as [?|[_ ?]]; [by apply interior_inb|done|done|done]. }
  split; [split|].
  - intros Hall Hen. pose proof (Hkept Hen) as He.
    rewrite (Hall s) in He; [done|]. by apply region_start.
  - intros Hfree q Hq. rewrite Hsame by done.
    apply Hdone; [done|by apply interior_inb|done|].
    by rewrite <- enemy_inside_reach.
  - intros Hen q Hq. rewrite Hsame by done. by apply Hkept.
Qed.

Lemma claim_territory_regions_witness :
  ∃ g1 g',
    mark_trail corner_board corner_trail = Ok g1 ∧
    claim_territory corner_board corner_trail [corner_enemy] = Ok g' ∧
    (∀ p, p ∈ corner_trail → cell g1 p = BORDER) ∧
    ∀ s, interior s → cell g1 s = EMPTY →
      ((∀ q, region g1 s q → cell g' q = CLAIMED)
       ↔ ¬ enemy_inside g1 [corner_enemy] s) ∧
      (enemy_inside g1 [corner_enemy] s → ∀ q, region g1 s q → cell g' q = EMPTY).
Proof.
  apply (claim_territory_regions corner_board corner_trail [corner_enemy]);
    by_eval.
Defined.

(** ** Counting claimed cells *)

Lemma tally_nil : tally [] = 0.
Proof. done. Qed.

Lemma tally_cons c cs :
  tally (c :: cs) = (if border_or_claimed c then 1 else 0) + tally cs.
Proof.
  unfold tally. rewrite filter_cons. destruct (border_or_claimed c).
  - rewrite decide_True by done. simpl length. lia.
  - rewrite decide_False by done. lia.
Qed.

Lemma tally_app cs1 cs2 : tally (cs1 ++ cs2) = tally cs1 + tally cs2.
Proof.
  induction cs1 as [|c cs1 IH]; [by rewrite tally_nil|].
  simpl app. rewrite !tally_cons, IH. lia.
Qed.

Lemma tally_range cs : 0 ≤ tally cs ≤ Z.of_nat (length cs).
Proof.
  induction cs as [|c cs IH]; [by rewrite tally_nil|].
  rewrite tally_cons. simpl length. destruct (border_or_claimed c); lia.
Qed.

Lemma tally_mono {A} (f f' : A → Cell) (l : list A) :
  (∀ a, a ∈ l → border_or_claimed (f a) = true → border_or_claimed (f' a) = true) →
  tally (f <$> l) ≤ tally (f' <$> l).
Proof.
  induction l as [|a l IH]; intros Hf; [done|].
  rewrite !fmap_cons, !tally_cons.
  assert (tally (f <$> l) ≤ tally (f' <$> l)) by (apply IH; intros; apply Hf; [by right|done]).
  destruct (border_or_claimed (f a)) eqn:Hb.
  - rewrite Hf; [lia|by left|done].
  - destruct (border_or_claimed (f' a)); lia.
Qed.

Lemma count_cell_ok g y n x :
  wf_grid g → inb (x, y) →
  count_cell g y n x = Ok (if border_or_claimed (cell g (x, y)) then n + 1 else n).
Proof. intros Hwf Hp. unfold count_cell. by rewrite grid_get_inb. Qed.

Lemma count_cells_ok g y xs :
  wf_grid g → 0 ≤ y < GRID_HEIGHT → Forall (λ x, 0 ≤ x < GRID_WIDTH) xs →
  ∀ n, for_each (count_cell g y) xs n
       = Ok (n + tally ((λ x, cell g (x, y)) <$> xs)).
Proof.
  intros Hwf Hy. induction 1 as [|x xs Hx _ IH]; intros n.
  - simpl. rewrite tally_nil. f_equal. lia.
  - cbn [for_each]. rewrite count_cell_ok by done.
    cbn [mbind Res_bind]. rewrite IH, fmap_cons, tally_cons.
    f_equal. destruct (border_or_claimed _); lia.
Qed.

Lemma count_row_ok g y n :
  wf_grid g → 0 ≤ y < GRID_HEIGHT →
  count_row g n y
  = Ok (n + tally ((λ x, cell g (x, y)) <$> seqZ 1 (GRID_WIDTH - 2))).
Proof.
  intros Hwf Hy. unfold count_row. apply count_cells_ok; [done|done|].
  apply Forall_seqZ. intros. lia.
Qed.

Lemma count_rows_ok g ys :
  wf_grid g → Forall (λ y, 0 ≤ y < GRID_HEIGHT) ys →
  ∀ n, for_each (count_row g) ys n
       = Ok (n + tally (cell g <$> (ys ≫= λ y, (λ x, (x, y)) <$> seqZ 1 (GRID_WIDTH - 2)))).
Proof.
  intros Hwf. induction 1 as [|y ys Hy _ IH]; intros n.
  - simpl. rewrite tally_nil. f_equal. lia.
  - cbn [for_each]. rewrite count_row_ok by done.
    cbn [mbind Res_bind]. rewrite bind_cons, IH, fmap_app, tally_app, <- list_fmap_compose.
    f_equal. unfold compose. lia.
Qed.

Lemma count_claimed_ok g :
  wf_grid g → count_claimed g = Ok (tally (cell g <$> interior_cells)).
Proof.
  intros Hwf. unfold count_claimed. rewrite count_rows_ok; [done|done|].
  apply Forall_seqZ. intros. lia.
Qed.

Lemma length_interior_cells :
  Z.of_nat (length interior_cells) = interior_total.
Proof.
  unfold interior_cells, interior_total.
  rewrite (length_bind_const _ _ (Z.to_nat (GRID_WIDTH - 2))).
  - rewrite length_seqZ. dims. lia.
  - intros y. by rewrite length_fmap, length_seqZ.
Qed.

Lemma interior_total_pos : 0 < interior_total.
Proof. unfold interior_total. dims. lia. Qed.

(** ** The percentage as a rational *)

Lemma percentage_of_mono c1 c2 t :
  c1 ≤ c2 → (percentage_of c1 t <= percentage_of c2 t)%Q.
Proof.
  intros Hc. unfold percentage_of. case_bool_decide; [|apply Qle_refl].
  destruct t as [|t|t]; try lia.
  unfold Qle, Qdiv, Qmult, Qinv, inject_Z. simpl. nia.
Qed.

Lemma percentage_of_range c t :
  0 ≤ c ≤ t → (0 <= percentage_of c t)%Q ∧ (percentage_of c t <= 100)%Q.
Proof.
  intros Hc. unfold percentage_of. case_bool_decide; [|done].
  destruct t as [|t|t]; try lia.
  unfold Qle, Qdiv, Qmult, Qinv, inject_Z. simpl.
  rewrite ?Pos.mul_1_r, ?Z.mul_1_r. split; nia.
Qed.

Lemma calculate_percentage_ok g :
  wf_grid g →
  calculate_percentage g
  = Ok (percentage_of (tally (cell g <$> interior_cells)) interior_total).
Proof. intros Hwf. unfold calculate_percentage. by rewrite count_claimed_ok. Qed.

(** ** What a claiming pass changes *)

Lemma claim_territory_frame g tr es :
  wf_grid g → Forall inb tr →
  ∃ g', claim_territory g tr es = Ok g' ∧ wf_grid g' ∧
    ∀ p, inb p →
      (p ∈ tr → cell g' p = BORDER) ∧
      (p ∉ tr → cell g p ≠ EMPTY → cell g' p = cell g p) ∧
      (p ∉ tr → cell g p = EMPTY → cell g' p = EMPTY ∨ cell g' p = CLAIMED).
Proof.
  intros Hwf Htr.
  destruct (mark_trail_spec g tr Hwf Htr) as (g1 & Hmark & Hwf1 & Hcell1).
  destruct (claim_scan_spec g1 es Hwf1) as (g' & Hscan & Hinv & _ & _).
  exists g'. split; [by unfold claim_territory; rewrite Hmark|].
  split; [by destruct Hinv|]. intros p Hp.
  pose proof (Hcell1 p Hp) as Hc1. split; [|split].
  - intros Hin. rewrite decide_True in Hc1 by done.
    rewrite (si_solid _ _ _ Hinv) by (done || by rewrite Hc1). done.
  - intros Hin Hne. rewrite decide_False in Hc1 by done.
    rewrite (si_solid _ _ _ Hinv) by (done || by rewrite Hc1). done.
  - intros Hin He. rewrite decide_False in Hc1 by done.
    destruct (si_empty _ _ _ Hinv p Hp) as [?|[? _]]; [by rewrite Hc1|by left|by right].
Qed.

Lemma claim_territory_keeps g tr es g' p :
  wf_grid g → Forall inb tr → claim_territory g tr es = Ok g' → inb p →
  border_or_claimed (cell g p) = true → border_or_claimed (cell g' p) = true.
Proof.
  intros Hwf Htr Hrun Hp Hb.
  destruct (claim_territory_frame g tr es Hwf Htr) as (g'' & Hrun' & _ & Hframe).
  rewrite Hrun in Hrun'. injection Hrun' as <-.
  destruct (Hframe p Hp) as (Hin & Hout & _).
  destruct (decide (p ∈ tr)) as [Ht|Ht]; [by rewrite Hin|].
  rewrite Hout; [done|done|]. intros He. by rewrite He in Hb.
Qed.

(** ** The fresh board *)

Lemma reset_grid_ok : reset_grid = Ok fresh_board.
Proof. vm_compute. reflexivity. Qed.

Lemma fresh_board_wf : wf_grid fresh_board.
Proof. by_eval. Qed.

Lemma fresh_board_ring : ring_border fresh_board.
Proof. by_eval. Qed.

Lemma fresh_board_cells p :
  inb p → cell fresh_board p = if decide (interior p) then EMPTY else BORDER.
Proof.
  assert (Forall (λ p, cell fresh_board p
                       = if decide (interior p) then EMPTY else BORDER) all_cells)
    as H by by_eval.
  intros Hp. by apply (proj1 (Forall_forall _ _) H), elem_of_all_cells.
Qed.

(** ** Movement, case by case *)

Lemma get_cell_state_inb g x y :
  wf_grid g → inb (x, y) → get_cell_state g x y = Ok (cell g (x, y)).
Proof.
  intros Hwf Hp. unfold get_cell_state.
  rewrite (proj2 (in_bounds_true x y) Hp). by apply grid_get_inb.
Qed.

Lemma process_movement_eq s nx ny :
  wf_grid (grid s) → inb (nx, ny) →
  _process_movement s nx ny =
    let c := cell (grid s) (nx, ny) in
    if negb (drawing s) && bool_decide (c = EMPTY) then
      Ok (mkGame (grid s) nx ny (enemies s) [(nx, ny)] true
                 (score s) (running s) (game_over s) (game_won s) (message s))
    else if drawing s && bool_decide ((nx, ny) ∈ trail s) then
      Ok (set_game_over s "Hit your own trail!")
    else if drawing s then
      if border_or_claimed c then complete_trail s nx ny
      else if bool_decide (c = EMPTY) then
        Ok (mkGame (grid s) nx ny (enemies s) (trail s ++ [(nx, ny)])
                   (drawing s) (score s) (running s) (game_over s) (game_won s)
                   (message s))
      else Ok s
    else Ok (set_player s nx ny).
Proof.
  intros Hwf Hp. unfold _process_movement, is_on_border_or_claimed.
  rewrite get_cell_state_inb by done. done.
Qed.

Lemma complete_trail_ok s nx ny :
  wf_grid (grid s) → Forall inb (trail s) →
  ∃ g', claim_territory (grid s) (trail s) (enemies s) = Ok g' ∧
        wf_grid g' ∧
        let sc := percentage_of (tally (cell g' <$> interior_cells)) interior_total in
        calculate_percentage g' = Ok sc ∧
        complete_trail s nx ny
        = Ok (mkGame g' nx ny (enemies s) [] false sc (running s) (game_over s)
                     (if Qle_bool TARGET_PERCENTAGE sc then true else game_won s)
                     (if Qle_bool TARGET_PERCENTAGE sc then "Victory!"%string
                      else message s)).
Proof.
  intros Hwf Htr.
  destruct (claim_territory_frame _ _ (enemies s) Hwf Htr) as (g' & Hrun & Hwf' & _).
  exists g'. split; [done|]. split; [done|].
  pose proof (calculate_percentage_ok g' Hwf') as Hpct. simpl. split; [done|].
  unfold complete_trail. rewrite Hrun. cbn [mbind Res_bind]. by rewrite Hpct.
Qed.

(** ** Invariants of a run *)

Lemma game_inv_trail_inb s : game_inv s → Forall inb (trail s).
Proof. intros Hinv. eapply Forall_impl; [apply (gi_trail _ Hinv)|]. by intros p [? _]. Qed.

Lemma claim_territory_inv s g' :
  game_inv s → claim_territory (grid s) (trail s) (enemies s) = Ok g' →
  wf_grid g' ∧ ring_border g' ∧ (∀ p, inb p → cell g' p ≠ TRAIL) ∧
  (∀ p, p ∈ trail s → cell g' p = BORDER).
Proof.
  intros Hinv Hrun. pose proof (game_inv_trail_inb s Hinv) as Htr.
  destruct (claim_territory_frame _ _ (enemies s) (gi_wf _ Hinv) Htr)
    as (g'' & Hrun' & Hwf' & Hframe).
  rewrite Hrun in Hrun'. injection Hrun' as <-.
  split; [done|]. split; [|split].
  - unfold ring_border. apply Forall_forall. intros p Hp%elem_of_all_cells.
    destruct (decide (interior p)) as [|Hni]; [by left|right].
    destruct (Hframe p Hp) as (Hin & Hout & _).
    destruct (decide (p ∈ trail s)); [by apply Hin|].
    pose proof (ring_border_spec _ p (gi_ring _ Hinv) Hp Hni) as Hb.
    rewrite Hout; [done|done|by rewrite Hb].
  - intros p Hp. destruct (Hframe p Hp) as (Hin & Hout & Hempty).
    destruct (decide (p ∈ trail s)); [by rewrite Hin|].
    destruct (decide (cell (grid s) p = EMPTY)) as [He|Hne].
    + destruct (Hempty n He) as [->| ->]; done.
    + rewrite Hout by done. by apply (gi_no_trail _ Hinv).
  - intros p Hp. apply Hframe; [|done].
    by apply (proj1 (Forall_forall _ _) Htr).
Qed.

(** A movement update leaves the grid alone unless it closes a trail, in
    which case the new grid is the result of the claiming pass. *)
Lemma handle_movement_grid keys s s' :
  game_inv s → handle_movement keys s = Ok s' →
  (grid s' = grid s ∧
   (trail s' = trail s ∨
    ∃ p, inb p ∧ cell (grid s) p = EMPTY ∧
         (trail s' = [p] ∨ trail s' = trail s ++ [p]))) ∨
  (drawing s = true ∧ trail s' = [] ∧
   claim_territory (grid s) (trail s) (enemies s) = Ok (grid s')).
Proof.
  intros Hinv. unfold handle_movement.
  destruct (game_over s || game_won s); [intros [= <-]; by left; split; [|left]|].
  destruct (destination keys (player_x s) (player_y s)) as [[nx ny] moved].
  destruct (moved && in_bounds nx ny) eqn:Hm;
    [|intros [= <-]; by left; split; [|left]].
  apply andb_true_iff in Hm as [_ Hp%in_bounds_true].
  rewrite process_movement_eq by (done || apply Hinv). cbn zeta.
  destruct (drawing s) eqn:Hd; cbn [negb andb].
  - case_bool_decide as Htr; [intros [= <-]; by left; split; [|left]|].
    destruct (border_or_claimed _) eqn:Hb.
    + destruct (complete_trail_ok s nx ny (gi_wf _ Hinv) (game_inv_trail_inb _ Hinv))
        as (g' & Hrun & _ & _ & ->).
      intros [= <-]. by right.
    + case_bool_decide as He; intros [= <-]; left; (split; [done|]); [|by left].
      right. exists (nx, ny). split; [done|]. split; [done|]. by right.
  - case_bool_decide as He; intros [= <-]; left; (split; [done|]); [|by left].
    right. exists (nx, ny). split; [done|]. split; [done|]. by left.
Qed.

Lemma handle_movement_inv keys s s' :
  game_inv s → handle_movement keys s = Ok s' → game_inv s'.
Proof.
  intros Hinv Hrun.
  destruct (handle_movement_grid keys s s' Hinv Hrun)
    as [[Hg Htr]|(_ & Htr & Hclaim)].
  - split; rewrite ?Hg; try apply Hinv.
    destruct Htr as [->|(p & Hp & He & [->| ->])]; [apply Hinv|..].
    + by apply Forall_singleton.
    + apply Forall_app. split; [apply Hinv|]. by apply Forall_singleton.
  - destruct (claim_territory_inv s _ Hinv Hclaim) as (? & ? & ? & _).
    split; [done|done|done|]. rewrite Htr. constructor.
Qed.

Lemma update_enemies_frame s s' :
  update_enemies s = Ok s' →
  grid s' = grid s ∧ trail s' = trail s ∧ drawing s' = drawing s ∧
  player_x s' = player_x s ∧ player_y s' = player_y s ∧
  score s' = score s ∧ running s' = running s ∧ game_won s' = game_won s.
Proof.
  unfold update_enemies.
  destruct (enemies_loop _ _ _ _) as [[[es over] msg]|]; [|done].
  by intros [= <-].
Qed.

Lemma session_step_inv s s' : game_inv s → session_step s s' → game_inv s'.
Proof.
  intros Hinv Hs. revert Hinv.
  destruct Hs as [keys s1 s2 Hm|s1 s2 _ _ He]; intros Hinv;
    [by eapply handle_movement_inv|].
  destruct (update_enemies_frame _ _ He) as (Hg & Ht & _).
  split; rewrite ?Hg, ?Ht; apply Hinv.
Qed.

Lemma reset_game_state_inv ds s0 s : reset_game_state ds s0 = Ok s → game_inv s.
Proof.
  unfold reset_game_state. rewrite reset_grid_ok. intros [= <-].
  split; simpl; [apply fresh_board_wf|apply fresh_board_ring| |constructor].
  intros p Hp. rewrite fresh_board_cells by done. by case_decide.
Qed.

Lemma handle_input_inv ds ev s s' :
  game_inv s → handle_input ds ev s = Ok s' → game_inv s'.
Proof.
  intros Hinv. unfold handle_input.
  destruct ev as [|[| |]|]; try (intros [= <-]; by destruct Hinv).
  destruct (game_over s || game_won s); [apply reset_game_state_inv|].
  by intros [= <-].
Qed.

Lemma reachable_inv s : reachable s → game_inv s.
Proof.
  induction 1 as [ds s0 s _ Hr|ds ev s s' _ IH _ Hi|s s' _ IH Hs].
  - by eapply reset_game_state_inv.
  - by eapply handle_input_inv.
  - by eapply session_step_inv.
Qed.

Lemma demo_start_reachable : reachable demo_start.
Proof.
  apply (reach_reset demo_draws init_game); [by_eval|].
  unfold reset_game_state. by rewrite reset_grid_ok.
Qed.

Lemma demo_drawing_reachable : reachable demo_drawing.
Proof.
  apply (reach_step demo_start); [apply demo_start_reachable|].
  apply (step_move key_down). vm_compute. reflexivity.
Qed.

(** ** C5: the border sentinel *)

(** C5.  Outside the grid bounds [get_cell_state] returns [BORDER]; inside
    them it returns the stored cell state; on a grid of the game's
    dimensions it never raises, whatever the coordinates. *)
Theorem get_cell_state_sentinel g x y :
  wf_grid g →
  ((x < 0 ∨ x >= GRID_WIDTH ∨ y < 0 ∨ y >= GRID_HEIGHT) →
     get_cell_state g x y = Ok BORDER) ∧
  ((0 ≤ x < GRID_WIDTH ∧ 0 ≤ y < GRID_HEIGHT) →
     ∃ c, stored g (x, y) = Some c ∧ get_cell_state g x y = Ok c) ∧
  (∃ c, get_cell_state g x y = Ok c).
Proof.
  intros Hwf.
  assert ((x < 0 ∨ x >= GRID_WIDTH ∨ y < 0 ∨ y >= GRID_HEIGHT) →
          get_cell_state g x y = Ok BORDER) as Hout.
  { intros Ho. unfold get_cell_state.
    rewrite (proj2 (in_bounds_false x y)); [done|]. unfold inb. simpl. lia. }
  assert ((0 ≤ x < GRID_WIDTH ∧ 0 ≤ y < GRID_HEIGHT) →
          ∃ c, stored g (x, y) = Some c ∧ get_cell_state g x y = Ok c) as Hin.
  { intros Hp. exists (cell g (x, y)).
    split; [by apply stored_inb|by apply get_cell_state_inb]. }
  split; [done|]. split; [done|].
  destruct (decide (inb (x, y))) as [Hp|Hp].
  - destruct (Hin Hp) as (c & _ & Hc). by exists c.
  - exists BORDER. apply Hout. unfold inb in Hp. simpl in Hp. lia.
Qed.

Lemma get_cell_state_sentinel_witness :
  ((-1 < 0 ∨ -1 >= GRID_WIDTH ∨ 5 < 0 ∨ 5 >= GRID_HEIGHT) →
     get_cell_state corner_board (-1) 5 = Ok BORDER) ∧
  ((0 ≤ -1 < GRID_WIDTH ∧ 0 ≤ 5 < GRID_HEIGHT) →
     ∃ c, stored corner_board (-1, 5) = Some c ∧
          get_cell_state corner_board (-1) 5 = Ok c) ∧
  (∃ c, get_cell_state corner_board (-1) 5 = Ok c).
Proof. apply (get_cell_state_sentinel corner_board (-1) 5). by_eval. Defined.

(** ** C8: moves that are ignored *)

(** C8.  A move whose destination is off the board, and any move made
    once the game is lost or won, returns normally with the game state
    unchanged. *)
Theorem ignored_moves keys s nx ny moved :
  destination keys (player_x s) (player_y s) = (nx, ny, moved) →
  game_over s = true ∨ game_won s = true ∨ ¬ inb (nx, ny) →
  handle_movement keys s = Ok s.
Proof.
  intros Hdest Hcase. unfold handle_movement. rewrite Hdest.
  destruct (game_over s), (game_won s); try done.
  destruct Hcase as [?|[?|Hout]]; try done.
  apply in_bounds_false in Hout. rewrite Hout. by rewrite andb_false_r.
Qed.

Lemma ignored_moves_witness : handle_movement key_up demo_start = Ok demo_start.
Proof.
  apply (ignored_moves key_up demo_start 35 (-1) true); [reflexivity|].
  right. right. by_eval.
Defined.

(** ** C4: running into the own trail *)

(** C4.  While drawing, a move onto a board cell that is already in the
    trail ends the game as lost with the message "Hit your own trail!";
    the player position, the trail and the grid stay as they were. *)
Theorem self_hit_loses keys s nx ny :
  wf_grid (grid s) →
  game_over s = false → game_won s = false → drawing s = true →
  destination keys (player_x s) (player_y s) = (nx, ny, true) →
  inb (nx, ny) → (nx, ny) ∈ trail s →
  ∃ s', handle_movement keys s = Ok s' ∧
        game_over s' = true ∧ game_won s' = false ∧
        message s' = "Hit your own trail!"%string ∧
        player_x s' = player_x s ∧ player_y s' = player_y s ∧
        trail s' = trail s ∧ grid s' = grid s.
Proof.
  intros Hwf Hover Hwon Hdraw Hdest Hp Hin.
  exists (set_game_over s "Hit your own trail!").
  split; [|by repeat split].
  unfold handle_movement. rewrite Hover, Hwon, Hdest. cbn [orb andb].
  rewrite (proj2 (in_bounds_true nx ny) Hp).
  rewrite process_movement_eq by done. cbn zeta.
  rewrite Hdraw. cbn [negb andb]. by rewrite bool_decide_eq_true_2.
Qed.

Lemma self_hit_loses_witness :
  ∃ s', handle_movement key_up demo_two_cells = Ok s' ∧
        game_over s' = true ∧ game_won s' = false ∧
        message s' = "Hit your own trail!"%string ∧
        player_x s' = 35 ∧ player_y s' = 2 ∧
        trail s' = [(35, 1); (35, 2)] ∧ grid s' = fresh_board.
Proof.
  apply (self_hit_loses key_up demo_two_cells 35 1);
    [apply fresh_board_wf|reflexivity|reflexivity|reflexivity|reflexivity|
     by_eval|by_eval].
Defined.

(** ** C2: closing a trail *)

(** C2.  While drawing, a move onto a [BORDER] or [CLAIMED] board cell
    that is not in the trail runs the claiming pass, leaves the drawing
    state, empties the trail, moves the player there and stores the
    percentage recomputed from the grid the pass produced; the game is won
    exactly when that percentage reaches [TARGET_PERCENTAGE], and the grid
    of the new state is the one the pass produced. *)
Theorem closure_claims_then_checks_win keys s nx ny :
  wf_grid (grid s) → Forall inb (trail s) →
  game_over s = false → game_won s = false → drawing s = true →
  destination keys (player_x s) (player_y s) = (nx, ny, true) →
  inb (nx, ny) → (nx, ny) ∉ trail s →
  cell (grid s) (nx, ny) = BORDER ∨ cell (grid s) (nx, ny) = CLAIMED →
  ∃ g' sc s',
    claim_territory (grid s) (trail s) (enemies s) = Ok g' ∧
    calculate_percentage g' = Ok sc ∧
    handle_movement keys s = Ok s' ∧
    drawing s' = false ∧ grid s' = g' ∧ trail s' = [] ∧
    player_x s' = nx ∧ player_y s' = ny ∧ score s' = sc ∧
    game_over s' = false ∧
    ((TARGET_PERCENTAGE <= sc)%Q → game_won s' = true ∧ message s' = "Victory!"%string) ∧
    (¬ (TARGET_PERCENTAGE <= sc)%Q → game_won s' = false ∧ message s' = message s).
Proof.
  intros Hwf Htr Hover Hwon Hdraw Hdest Hp Hnin Hsolid.
  destruct (complete_trail_ok s nx ny Hwf Htr) as (g' & Hrun & _ & Hpct & Hdone).
  cbn zeta in *.
  set (sc := percentage_of (tally (cell g' <$> interior_cells)) interior_total) in *.
  eexists g', sc, _. split; [done|]. split; [done|]. split.
  { unfold handle_movement. rewrite Hover, Hwon, Hdest. cbn [orb andb].
    rewrite (proj2 (in_bounds_true nx ny) Hp).
    rewrite process_movement_eq by done. cbn zeta.
    rewrite Hdraw. cbn [negb andb]. rewrite bool_decide_eq_false_2 by done.
    replace (border_or_claimed (cell (grid s) (nx, ny))) with true
      by (by destruct Hsolid as [-> | ->]).
    exact Hdone. }
  simpl. repeat (split; [done|]). split.
  - intros Hle%Qle_bool_iff. by rewrite Hle.
  - intros Hnle. destruct (Qle_bool TARGET_PERCENTAGE sc) eqn:Hb; [|by rewrite Hwon].
    by apply Qle_bool_iff in Hb.
Qed.

Lemma closure_claims_then_checks_win_witness :
  ∃ g' sc s',
    claim_territory corner_board corner_trail [corner_enemy] = Ok g' ∧
    calculate_percentage g' = Ok sc ∧
    handle_movement key_down corner_game = Ok s' ∧
    drawing s' = false ∧ grid s' = g' ∧ trail s' = [] ∧
    player_x s' = 3 ∧ player_y s' = 2 ∧ score s' = sc ∧
    game_over s' = false ∧
    ((TARGET_PERCENTAGE <= sc)%Q → game_won s' = true ∧ message s' = "Victory!"%string) ∧
    (¬ (TARGET_PERCENTAGE <= sc)%Q → game_won s' = false ∧ message s' = ""%string).
Proof.
  apply (closure_claims_then_checks_win key_down corner_game 3 2);
    [by_eval|by_eval|reflexivity|reflexivity|reflexivity|reflexivity|
     by_eval|by_eval|right; reflexivity].
Defined.

(** ** C10: the grid never holds [TRAIL] *)

Lemma session_step_grid s s' :
  game_inv s → session_step s s' →
  grid s' = grid s ∨
  (drawing s = true ∧ trail s' = [] ∧
   claim_territory (grid s) (trail s) (enemies s) = Ok (grid s')).
Proof.
  intros Hinv Hs. revert Hinv.
  destruct Hs as [keys s1 s2 Hm|s1 s2 _ _ He]; intros Hinv.
  - destruct (handle_movement_grid keys s1 s2 Hinv Hm) as [[? _]|?]; [by left|by right].
  - left. by destruct (update_enemies_frame _ _ He).
Qed.

(** C10.  In every state of a run no board cell holds [TRAIL], and every
    coordinate in the trail list is a board cell whose grid state is still
    [EMPTY].  A frame update either leaves the grid as it is or is the
    closure of the trail being drawn, and then every cell of that trail is
    [BORDER] in the new grid. *)
Theorem trail_lives_in_the_list s :
  reachable s →
  (∀ p, inb p → cell (grid s) p ≠ TRAIL) ∧
  (∀ p, p ∈ trail s → inb p ∧ cell (grid s) p = EMPTY) ∧
  (∀ s', session_step s s' →
     grid s' = grid s ∨
     (drawing s = true ∧ trail s' = [] ∧
      ∀ p, p ∈ trail s → cell (grid s') p = BORDER)).
Proof.
  intros Hinv%reachable_inv. split; [apply Hinv|]. split.
  - intros p Hp. by apply (proj1 (Forall_forall _ _) (gi_trail _ Hinv)).
  - intros s' Hs.
    destruct (session_step_grid s s' Hinv Hs) as [?|(Hd & Ht & Hc)]; [by left|].
    right. split; [done|]. split; [done|].
    by destruct (claim_territory_inv s _ Hinv Hc) as (_ & _ & _ & ?).
Qed.

Lemma trail_lives_in_the_list_witness :
  (∀ p, inb p → cell (grid demo_drawing) p ≠ TRAIL) ∧
  (∀ p, p ∈ trail demo_drawing → inb p ∧ cell (grid demo_drawing) p = EMPTY) ∧
  (∀ s', session_step demo_drawing s' →
     grid s' = grid demo_drawing ∨
     (drawing demo_drawing = true ∧ trail s' = [] ∧
      ∀ p, p ∈ trail demo_drawing → cell (grid s') p = BORDER)).
Proof. apply (trail_lives_in_the_list demo_drawing), demo_drawing_reachable. Defined.

(** ** C3: the percentage stays in range and never drops *)

Lemma percentage_le g g' :
  wf_grid g → wf_grid g' →
  (∀ p, interior p → border_or_claimed (cell g p) = true →
        border_or_claimed (cell g' p) = true) →
  ∃ q q', calculate_percentage g = Ok q ∧ calculate_percentage g' = Ok q' ∧
          (q <= q')%Q.
Proof.
  intros Hwf Hwf' Hkeep. eexists _, _.
  split; [by apply calculate_percentage_ok|].
  split; [by apply calculate_percentage_ok|].
  apply percentage_of_mono, tally_mono.
  intros p Hp%elem_of_interior_cells. by apply Hkeep.
Qed.

Lemma session_step_keeps s s' p :
  game_inv s → session_step s s' → inb p →
  border_or_claimed (cell (grid s) p) = true →
  border_or_claimed (cell (grid s') p) = true.
Proof.
  intros Hinv Hs Hp Hb.
  destruct (session_step_grid s s' Hinv Hs) as [->|(_ & _ & Hc)]; [done|].
  eapply claim_territory_keeps; [apply Hinv|by apply game_inv_trail_inb|done..].
Qed.

Lemma session_steps_keep s s' :
  game_inv s → rtc session_step s s' →
  game_inv s' ∧
  ∀ p, inb p → border_or_claimed (cell (grid s) p) = true →
       border_or_claimed (cell (grid s') p) = true.
Proof.
  intros Hinv Hsteps. revert Hinv.
  induction Hsteps as [s|s s1 s' Hs _ IH]; intros Hinv; [done|].
  destruct (IH (session_step_inv _ _ Hinv Hs)) as [Hinv' Hkeep].
  split; [done|]. intros p Hp Hb. apply Hkeep; [done|].
  by apply (session_step_keeps s).
Qed.

(** C3.  In every state of a run the claimed percentage is computed
    without raising and lies between 0 and 100; over any sequence of frame
    updates without a reset it does not decrease; and a claiming pass leaves
    every interior cell that was [CLAIMED] or [BORDER] in one of these two
    states. *)
Theorem percentage_in_range_and_monotone s :
  reachable s →
  (∃ q, calculate_percentage (grid s) = Ok q ∧ (0 <= q)%Q ∧ (q <= 100)%Q) ∧
  (∀ s', rtc session_step s s' →
     ∃ q q', calculate_percentage (grid s) = Ok q ∧
             calculate_percentage (grid s') = Ok q' ∧ (q <= q')%Q) ∧
  (∀ g', claim_territory (grid s) (trail s) (enemies s) = Ok g' →
     ∀ p, interior p →
          cell (grid s) p = CLAIMED ∨ cell (grid s) p = BORDER →
          cell g' p = CLAIMED ∨ cell g' p = BORDER).
Proof.
  intros Hinv%reachable_inv. pose proof (gi_wf _ Hinv) as Hwf. split; [|split].
  - eexists. split; [by apply calculate_percentage_ok|].
    apply percentage_of_range. rewrite <- length_interior_cells.
    pose proof (tally_range (cell (grid s) <$> interior_cells)) as Hr.
    by rewrite length_fmap in Hr.
  - intros s' Hsteps.
    destruct (session_steps_keep s s' Hinv Hsteps) as [Hinv' Hkeep].
    apply percentage_le; [done|apply Hinv'|].
    intros p Hp. by apply Hkeep, interior_inb.
  - intros g' Hrun p Hp Hc.
    assert (border_or_claimed (cell g' p) = true) as Hb.
    { eapply claim_territory_keeps;
        [done|by apply game_inv_trail_inb|done|by apply interior_inb|].
      by destruct Hc as [-> | ->]. }
    destruct (cell g' p); naive_solver.
Qed.

Lemma percentage_in_range_and_monotone_witness :
  (∃ q, calculate_percentage (grid demo_drawing) = Ok q ∧ (0 <= q)%Q ∧ (q <= 100)%Q) ∧
  (∀ s', rtc session_step demo_drawing s' →
     ∃ q q', calculate_percentage (grid demo_drawing) = Ok q ∧
             calculate_percentage (grid s') = Ok q' ∧ (q <= q')%Q) ∧
  (∀ g', claim_territory (grid demo_drawing) (trail demo_drawing)
                         (enemies demo_drawing) = Ok g' →
     ∀ p, interior p →
          cell (grid demo_drawing) p = CLAIMED ∨ cell (grid demo_drawing) p = BORDER →
          cell g' p = CLAIMED ∨ cell g' p = BORDER).
Proof.
  apply (percentage_in_range_and_monotone demo_drawing), demo_drawing_reachable.
Defined.

(** ** C6: the percentage formula *)

Lemma strip_ends_seqZ {A} (d : A) (l : list A) :
  strip_ends l
  = (λ i, default d (l !! Z.to_nat i)) <$> seqZ 1 (Z.of_nat (length l) - 2).
Proof.
  apply list_eq. intros i. unfold strip_ends.
  rewrite lookup_drop, list_lookup_fmap, lookup_take.
  destruct (decide (Z.of_nat i < Z.of_nat (length l) - 2)) as [Hi|Hi].
  - rewrite decide_True by lia. rewrite lookup_seqZ_lt by done. simpl.
    replace (Z.to_nat (1 + Z.of_nat i)) with (1 + i)%nat by lia.
    destruct (lookup_lt_is_Some_2 l (1 + i)) as [v Hv]; [lia|]. by rewrite Hv.
  - rewrite lookup_seqZ_ge by lia. simpl. case_decide; [|done].
    apply lookup_ge_None_2. lia.
Qed.

Lemma concat_rows g (xs ys : list Z) :
  concat ((λ y, (λ x, cell g (x, y)) <$> xs) <$> ys)
  = cell g <$> (ys ≫= λ y, (λ x, (x, y)) <$> xs).
Proof.
  induction ys as [|y ys IH]; [done|].
  rewrite fmap_cons, bind_cons, fmap_app, <- IH, <- list_fmap_compose. done.
Qed.

(** Taking the outer ring away leaves the states of the interior cells, row
    by row. *)
Lemma interior_states_cells g :
  wf_grid g → interior_states g = cell g <$> interior_cells.
Proof.
  intros Hwf. destruct Hwf as [Hlen Hrows]. unfold interior_states, interior_cells.
  rewrite <- concat_rows. f_equal.
  rewrite (strip_ends_seqZ [] g), <- list_fmap_compose, Hlen.
  replace (Z.of_nat (Z.to_nat GRID_HEIGHT) - 2) with (GRID_HEIGHT - 2) by (dims; lia).
  apply Forall_fmap_ext, Forall_seqZ. intros y Hy. unfold compose.
  destruct (lookup_lt_is_Some_2 g (Z.to_nat y)) as [row Hrow]; [lia|].
  rewrite Hrow. simpl.
  pose proof (Forall_lookup_1 _ _ _ _ Hrows Hrow) as Hw. simpl in Hw.
  rewrite (strip_ends_seqZ BORDER row), Hw.
  replace (Z.of_nat (Z.to_nat GRID_WIDTH) - 2) with (GRID_WIDTH - 2) by (dims; lia).
  apply Forall_fmap_ext, Forall_seqZ. intros x Hx.
  unfold cell, stored. simpl. by rewrite Hrow.
Qed.

(** C6.  For a grid of the game's dimensions [calculate_percentage]
    returns the number of interior cells that are [CLAIMED] or [BORDER],
    divided by the number of interior cells, times 100, where the interior
    is the grid without its outer ring.  The value is a function of the grid
    alone: the stored [score] is not consulted. *)
Theorem calculate_percentage_formula s :
  wf_grid (grid s) →
  calculate_percentage (grid s) = Ok (spec_claimed_percentage (grid s)) ∧
  Z.of_nat (length (interior_states (grid s)))
  = (GRID_WIDTH - 2) * (GRID_HEIGHT - 2) ∧
  ∀ s', grid s' = grid s →
        calculate_percentage (grid s') = calculate_percentage (grid s).
Proof.
  intros Hwf. split; [|split].
  - rewrite calculate_percentage_ok by done. unfold spec_claimed_percentage.
    rewrite interior_states_cells by done.
    rewrite length_fmap, length_interior_cells. unfold percentage_of.
    rewrite bool_decide_eq_true_2; [done|]. pose proof interior_total_pos. lia.
  - rewrite interior_states_cells by done.
    by rewrite length_fmap, length_interior_cells.
  - by intros s' ->.
Qed.

Lemma calculate_percentage_formula_witness :
  calculate_percentage (grid corner_game)
  = Ok (spec_claimed_percentage (grid corner_game)) ∧
  Z.of_nat (length (interior_states (grid corner_game)))
  = (GRID_WIDTH - 2) * (GRID_HEIGHT - 2) ∧
  ∀ s', grid s' = grid corner_game →
        calculate_percentage (grid s') = calculate_percentage (grid corner_game).
Proof. apply (calculate_percentage_formula corner_game). by_eval. Defined.

(** ** C9: the flood-fill runs of one pass *)

Lemma for_each_sim {A A' B : Type} (f : A → B → Res A) (f' : A' → B → Res A')
    (π : A' → A) :
  (∀ a' b, π <$> f' a' b = f (π a') b) →
  ∀ l a', π <$> for_each f' l a' = for_each f l (π a').
Proof.
  intros Hsim. induction l as [|b l IH]; intros a'; [done|].
  cbn [for_each]. rewrite <- Hsim.
  destruct (f' a' b) as [a1|e]; [|done]. cbn. apply IH.
Qed.

Lemma claim_cell_log_fst es y acc x :
  fst <$> claim_cell_log es y acc x = claim_cell es y acc.1 x.
Proof.
  unfold claim_cell_log, claim_cell.
  destruct (grid_get acc.1 x y) as [c|e]; [|done]. cbn.
  case_bool_decide; [|done].
  destruct (flood_fill acc.1 es x y) as [[area he]|e]; [|done]. cbn.
  destruct (negb he && bool_decide (area ≠ [])); [|done].
  by destruct (claim_area acc.1 area).
Qed.

Lemma claim_row_log_fst es acc y :
  fst <$> claim_row_log es acc y = claim_row es acc.1 y.
Proof. apply for_each_sim. intros. apply claim_cell_log_fst. Qed.

(** The grid the recording pass produces is the one [claim_territory]
    produces. *)
Lemma claim_territory_log_grid g tr es :
  fst <$> claim_territory_log g tr es = claim_territory g tr es.
Proof.
  unfold claim_territory_log, claim_territory.
  destruct (mark_trail g tr) as [g1|e]; [|done]. cbn.
  unfold claim_scan_log, claim_scan.
  apply (for_each_sim (claim_row es) (claim_row_log es) fst).
  intros. apply claim_row_log_fst.
Qed.

Lemma log_inv_init g1 es : log_inv g1 es g1 [].
Proof.
  split.
  - by intros r ?%elem_of_nil.
  - constructor.
  - intros p _. split; [|by intros ?%elem_of_nil].
    intros [He Hc]. by rewrite He in Hc.
Qed.

Lemma claimed_cells_snoc log area he :
  claimed_cells (log ++ [(area, he)])
  = claimed_cells log ++ (if he then [] else area).
Proof.
  unfold claimed_cells. rewrite filter_app, bind_app. f_equal.
  rewrite filter_cons, filter_nil. simpl. destruct he.
  - by rewrite decide_False.
  - rewrite decide_True by done. rewrite bind_cons. simpl. by rewrite app_nil_r.
Qed.

Lemma claimed_cells_inb g1 es gk log p :
  log_inv g1 es gk log → p ∈ claimed_cells log → inb p.
Proof.
  intros Hlog Hp. unfold claimed_cells in Hp.
  apply list_elem_of_bind in Hp as (r & Hp & Hr).
  apply list_elem_of_filter in Hr as [_ Hr].
  destruct (li_runs _ _ _ _ Hlog r Hr) as (_ & s & _ & Harea & _).
  apply Harea in Hp. by destruct (reach_empty_end _ _ _ Hp).
Qed.

Lemma claim_cell_log_step g1 es acc x y :
  scan_inv g1 es acc.1 → log_inv g1 es acc.1 acc.2 → inb (x, y) →
  ∃ acc', claim_cell_log es y acc x = Ok acc' ∧
          scan_inv g1 es acc'.1 ∧ log_inv g1 es acc'.1 acc'.2.
Proof.
  destruct acc as [gk log]. simpl. intros Hinv Hlog Hp.
  destruct (claim_cell_step g1 es gk x y Hinv Hp) as (gk1 & Hrun1 & Hinv1 & _).
  pose proof (si_wf _ _ _ Hinv) as Hwf.
  destruct (claim_cell_effect g1 es gk x y Hinv Hp)
    as [[Hc Hrun]|(area & he & gk' & Hc & Hfill & Hnd & Harea & Henemy & Hpaint & Hrun & Hwf' & Hcell)].
  { exists (gk, log). split; [|done].
    unfold claim_cell_log. simpl. rewrite grid_get_inb by done. cbn.
    by rewrite bool_decide_eq_false_2. }
  rewrite Hrun in Hrun1. injection Hrun1 as <-.
  exists (gk', log ++ [(area, he)]). split.
  { unfold claim_cell_log. simpl. rewrite grid_get_inb by done. cbn.
    rewrite bool_decide_eq_true_2 by done. rewrite Hfill. cbn.
    by rewrite Hpaint. }
  split; [done|]. simpl.
  assert (empty_at g1 (x, y)) as He1.
  { eapply scan_inv_empty; [exact Hinv|]. by split. }
  assert (∀ q, q ∈ area → inb q ∧ cell g1 q = EMPTY ∧ cell gk q = EMPTY) as Hin.
  { intros q Hq. pose proof (proj1 (Harea q) Hq) as Hr.
    destruct (reach_empty_end _ _ _ Hr) as [Hqb Hq1]. split; [done|]. split; [done|].
    rewrite <- (si_uniform _ _ _ Hinv (x, y) q Hr). done. }
  split.
  - intros r Hr. apply elem_of_app in Hr as [Hr|Hr]; [by apply (li_runs _ _ _ _ Hlog)|].
    apply list_elem_of_singleton in Hr as ->. simpl. split; [done|].
    exists (x, y). by split.
  - rewrite claimed_cells_snoc. destruct he; [rewrite app_nil_r; apply Hlog|].
    apply NoDup_app. split; [apply Hlog|]. split; [|done].
    intros p Hpc Hpa. pose proof (claimed_cells_inb _ _ _ _ _ Hlog Hpc) as Hpb.
    apply (li_claimed _ _ _ _ Hlog p Hpb) in Hpc as [_ Hcl].
    destruct (Hin p Hpa) as (_ & _ & Hem). by rewrite Hem in Hcl.
  - intros p Hpb. rewrite claimed_cells_snoc, elem_of_app, Hcell by done.
    rewrite <- (li_claimed _ _ _ _ Hlog p Hpb). destruct he.
    + rewrite decide_False by (by intros [? _]). rewrite elem_of_nil. tauto.
    + destruct (decide (false = false ∧ p ∈ area)) as [Hd|Hd].
      * destruct Hd as [_ Hpa]. destruct (Hin p Hpa) as (_ & ? & _). tauto.
      * split; [tauto|]. intros [?|Hpa]; [done|]. destruct Hd. done.
Qed.

Lemma claim_scan_log_spec g1 es :
  wf_grid g1 →
  ∃ g' log, claim_scan_log es g1 = Ok (g', log) ∧
            scan_inv g1 es g' ∧ log_inv g1 es g' log.
Proof.
  intros Hwf. set (I := λ a : Grid * list Run,
                          scan_inv g1 es a.1 ∧ log_inv g1 es a.1 a.2).
  assert (∀ y a, 0 ≤ y < GRID_HEIGHT → I a →
                 ∃ a', claim_row_log es a y = Ok a' ∧ I a') as Hrow.
  { intros y a Hy Ha. unfold claim_row_log.
    destruct (for_each_inv I (λ _ _, True) (λ _ _, True) (claim_cell_log es y)
                (seqZ 1 (GRID_WIDTH - 2))) with (a := a) as (a' & Hrun & Ha' & _);
      [done|done|done| |done|by exists a'].
    intros a0 x Hx [Hs Hl]. apply elem_of_seqZ in Hx.
    destruct (claim_cell_log_step g1 es a0 x y Hs Hl) as (a1 & ? & ? & ?).
    { split; simpl; lia. }
    by exists a1. }
  destruct (for_each_inv I (λ _ _, True) (λ _ _, True) (claim_row_log es)
              (seqZ 1 (GRID_HEIGHT - 2))) with (a := (g1, @nil Run))
    as ([g' log] & Hrun & [Hs Hl] & _); [done|done|done| | |].
  - intros a y Hy Ha. apply elem_of_seqZ in Hy.
    destruct (Hrow y a) as (a' & ? & ?); [lia|done|]. by exists a'.
  - split; [by apply scan_inv_init|apply log_inv_init].
  - by exists g', log.
Qed.




(** ** C7: enemies bounce *)

Lemma cell_solid_spec g ex ey :
  wf_grid g →
  ∃ b, cell_solid g ex ey = Ok b ∧
       (b = true ↔ inb (ex, ey) ∧
                   (cell g (ex, ey) = BORDER ∨ cell g (ex, ey) = CLAIMED)).
Proof.
  intros Hwf. unfold cell_solid. destruct (in_bounds ex ey) eqn:Hin.
  - apply in_bounds_true in Hin. rewrite grid_get_inb by done. cbn.
    eexists. split; [done|]. destruct (cell g (ex, ey)); naive_solver.
  - apply in_bounds_false in Hin. exists false. split; [done|]. naive_solver.
Qed.



Example incoming_enemy_bounces :
  bounce_enemy corner_board incoming_enemy = Ok (mkEnemy 14 23 2 (-2) 8).
Proof. vm_compute. reflexivity. Qed.

(** * Further properties of the engine *)

(** ** Flood fill *)

(** From an [EMPTY] board cell, [flood_fill] terminates without raising and
    returns each cell of the 4-connected [EMPTY] set of its start exactly
    once, the start included; [has_enemy] tells whether some enemy's
    quantized position is in that set. *)
Theorem flood_fill_component g es x y :
  wf_grid g → inb (x, y) → cell g (x, y) = EMPTY →
  ∃ area has_enemy,
    flood_fill g es x y = Ok (area, has_enemy) ∧
    NoDup area ∧ (x, y) ∈ area ∧
    (∀ q, q ∈ area ↔ reach g (x, y) q) ∧
    (∀ q, q ∈ area → inb q ∧ cell g q = EMPTY) ∧
    (∀ p q, p ∈ area → adj p q → inb q → cell g q = EMPTY → q ∈ area) ∧
    (has_enemy = true ↔ ∃ e, e ∈ es ∧ quantize e ∈ area).
Proof.
  intros Hwf Hp Hc. assert (empty_at g (x, y)) as He by done.
  destruct (flood_fill_spec g es x y Hwf He) as (area & he & Hrun & Hnd & Harea & Hen).
  exists area, he. split; [done|]. split; [done|]. split; [|split; [done|split; [|split]]].
  - by apply Harea, reach_start.
  - intros q Hq%Harea. by apply reach_empty_end in Hq.
  - intros p q Hp' Hadj Hq Hcq. apply Harea. eapply reach_next; [by apply Harea|done|done].
  - rewrite Hen. by setoid_rewrite Harea.
Qed.

Lemma flood_fill_component_witness :
  ∃ area has_enemy,
    flood_fill corner_board [corner_enemy] 1 1 = Ok (area, has_enemy) ∧
    NoDup area ∧ (1, 1) ∈ area ∧
    (∀ q, q ∈ area ↔ reach corner_board (1, 1) q) ∧
    (∀ q, q ∈ area → inb q ∧ cell corner_board q = EMPTY) ∧
    (∀ p q, p ∈ area → adj p q → inb q → cell corner_board q = EMPTY → q ∈ area) ∧
    (has_enemy = true ↔ ∃ e, e ∈ [corner_enemy] ∧ quantize e ∈ area).
Proof.
  apply (flood_fill_component corner_board [corner_enemy] 1 1);
    [by_eval|by_eval|reflexivity].
Defined.

Lemma enemy_in_empty es : enemy_in ∅ es = false.
Proof.
  unfold enemy_in. induction es as [|e es IH]; [done|]. simpl.
  rewrite bool_decide_eq_false_2 by set_solver. done.
Qed.

Lemma flood_fuel_pos : ∃ n, flood_fuel = S n.
Proof.
  unfold flood_fuel. exists (Z.to_nat (4 * (GRID_WIDTH * GRID_HEIGHT))). dims. lia.
Qed.

(** Started off the board, or on a cell that is not [EMPTY], [flood_fill]
    returns the empty area and reports no enemy, whatever the enemies. *)
Theorem flood_fill_blocked g es x y :
  wf_grid g → ¬ (inb (x, y) ∧ cell g (x, y) = EMPTY) →
  flood_fill g es x y = Ok ([], false).
Proof.
  intros Hwf Hne. unfold flood_fill. destruct flood_fuel_pos as [n ->].
  cbn [flood_loop]. rewrite bool_decide_eq_false_2 by set_solver.
  destruct (in_bounds x y) eqn:Hin; cbn [negb].
  - apply in_bounds_true in Hin. rewrite grid_get_inb by done. cbn [mbind Res_bind].
    rewrite bool_decide_eq_true_2 by (intros ?; by apply Hne).
    destruct n; cbn; by rewrite enemy_in_empty.
  - destruct n; cbn; by rewrite enemy_in_empty.
Qed.

Lemma flood_fill_blocked_witness :
  flood_fill corner_board [corner_enemy] 0 0 = Ok ([], false).
Proof. apply (flood_fill_blocked corner_board [corner_enemy] 0 0); by_eval. Defined.

(** ** The percentage at its extremes *)

Lemma tally_full cs :
  tally cs = Z.of_nat (length cs) ↔ Forall (λ c, border_or_claimed c = true) cs.
Proof.
  induction cs as [|c cs IH]; [by rewrite tally_nil|].
  rewrite tally_cons, Forall_cons, <- IH. pose proof (tally_range cs).
  simpl length. destruct (border_or_claimed c).
  - split; [intros; split; [done|lia]|intros [_ ?]; lia].
  - split; [lia|by intros [? _]].
Qed.

Lemma tally_none cs :
  tally cs = 0 ↔ Forall (λ c, border_or_claimed c = false) cs.
Proof.
  induction cs as [|c cs IH]; [by rewrite tally_nil|].
  rewrite tally_cons, Forall_cons, <- IH. pose proof (tally_range cs).
  destruct (border_or_claimed c).
  - split; [lia|by intros [? _]].
  - split; [intros; split; [done|lia]|intros [_ ?]; lia].
Qed.

Lemma percentage_of_full c t : 0 < t → (percentage_of c t == 100)%Q ↔ c = t.
Proof.
  intros Ht. unfold percentage_of. rewrite bool_decide_eq_true_2 by lia.
  destruct t as [|t|t]; try lia.
  unfold Qeq, Qdiv, Qmult, Qinv, inject_Z. simpl.
  rewrite ?Pos.mul_1_r, ?Z.mul_1_r. split; lia.
Qed.

Lemma percentage_of_none c t : 0 < t → (percentage_of c t == 0)%Q ↔ c = 0.
Proof.
  intros Ht. unfold percentage_of. rewrite bool_decide_eq_true_2 by lia.
  destruct t as [|t|t]; try lia.
  unfold Qeq, Qdiv, Qmult, Qinv, inject_Z. simpl.
  rewrite ?Pos.mul_1_r, ?Z.mul_1_r. split; lia.
Qed.

Lemma Forall_interior (P : Cell → Prop) g :
  Forall P (cell g <$> interior_cells) ↔ ∀ p, interior p → P (cell g p).
Proof.
  rewrite Forall_fmap, Forall_forall. unfold compose.
  split; intros H p Hp; apply H; by apply elem_of_interior_cells.
Qed.

Lemma percentage_full_none g :
  wf_grid g →
  ∃ q, calculate_percentage g = Ok q ∧
       ((q == 100)%Q ↔ ∀ p, interior p → cell g p = CLAIMED ∨ cell g p = BORDER) ∧
       ((q == 0)%Q ↔ ∀ p, interior p → cell g p ≠ CLAIMED ∧ cell g p ≠ BORDER).
Proof.
  intros Hwf. eexists. split; [by apply calculate_percentage_ok|].
  pose proof interior_total_pos as Hpos. split.
  - rewrite percentage_of_full by done.
    rewrite <- length_interior_cells, <- (length_fmap (cell g)), tally_full.
    rewrite (Forall_interior (λ c, border_or_claimed c = true)).
    split; intros H p Hp; specialize (H p Hp); destruct (cell g p); naive_solver.
  - rewrite percentage_of_none by done. rewrite tally_none.
    rewrite (Forall_interior (λ c, border_or_claimed c = false)).
    split; intros H p Hp; specialize (H p Hp); destruct (cell g p); naive_solver.
Qed.

(** The percentage is 100 exactly when every interior cell is [CLAIMED] or
    [BORDER], and 0 exactly when none is. *)
Theorem percentage_extremes g :
  wf_grid g →
  ∃ q, calculate_percentage g = Ok q ∧
       ((q == 100)%Q ↔ ∀ p, interior p → cell g p = CLAIMED ∨ cell g p = BORDER) ∧
       ((q == 0)%Q ↔ ∀ p, interior p → cell g p ≠ CLAIMED ∧ cell g p ≠ BORDER).
Proof. apply percentage_full_none. Qed.

Lemma percentage_extremes_witness :
  ∃ q, calculate_percentage fresh_board = Ok q ∧
       ((q == 100)%Q ↔ ∀ p, interior p →
          cell fresh_board p = CLAIMED ∨ cell fresh_board p = BORDER) ∧
       ((q == 0)%Q ↔ ∀ p, interior p →
          cell fresh_board p ≠ CLAIMED ∧ cell fresh_board p ≠ BORDER).
Proof. apply (percentage_extremes fresh_board). by_eval. Defined.

(** ** Reset *)

Lemma quantize_spawn d : quantize (spawn d) = (d_x d, d_y d).
Proof.
  unfold quantize, spawn. simpl. dims.
  rewrite !Z.div_mul by lia. done.
Qed.



(** ** Claiming twice, and claiming with no enemies *)

Lemma grid_ext (g g' : Grid) :
  wf_grid g → wf_grid g' → (∀ p, inb p → cell g p = cell g' p) → g = g'.
Proof.
  intros Hwf Hwf' Hcells. apply list_eq. intros i.
  destruct (decide (i < Z.to_nat GRID_HEIGHT)%nat) as [Hi|Hi].
  2:{ rewrite !lookup_ge_None_2; [done|destruct Hwf'; lia|destruct Hwf; lia]. }
  assert (∀ j, (j < Z.to_nat GRID_WIDTH)%nat → inb (Z.of_nat j, Z.of_nat i)) as Hin.
  { intros j Hj. unfold inb. simpl. lia. }
  destruct (decide (0 < Z.to_nat GRID_WIDTH)%nat) as [Hw|Hw]; [|dims; lia].
  destruct (wf_row g _ Hwf (Hin 0%nat Hw)) as (row & Hrow & Hlen).
  destruct (wf_row g' _ Hwf' (Hin 0%nat Hw)) as (row' & Hrow' & Hlen').
  simpl in Hrow, Hrow'. rewrite Nat2Z.id in Hrow, Hrow'.
  rewrite Hrow, Hrow'. f_equal. apply list_eq. intros j.
  destruct (decide (j < Z.to_nat GRID_WIDTH)%nat) as [Hj|Hj].
  2:{ rewrite !lookup_ge_None_2; [done|lia|lia]. }
  pose proof (stored_inb g _ Hwf (Hin j Hj)) as Hs.
  pose proof (stored_inb g' _ Hwf' (Hin j Hj)) as Hs'.
  unfold stored in Hs, Hs'. simpl in Hs, Hs'. rewrite !Nat2Z.id in Hs, Hs'.
  rewrite Hrow in Hs. rewrite Hrow' in Hs'. simpl in Hs, Hs'.
  rewrite Hs, Hs'. f_equal. by apply Hcells, Hin.
Qed.

(** Once the scan has dealt with every interior cell, scanning again changes
    nothing. *)
Lemma claim_scan_fixpoint g1 es g' :
  scan_inv g1 es g' → (∀ p, interior p → scan_done g1 es p g') →
  claim_scan es g' = Ok g'.
Proof.
  intros Hinv Hdone.
  assert (∀ x y, interior (x, y) → claim_cell es y g' x = Ok g') as Hcell.
  { intros x y Hp. pose proof (interior_inb _ Hp) as Hpb.
    destruct (claim_cell_effect g1 es g' x y Hinv Hpb)
      as [[_ ?]|(area & he & gk' & Hc & _ & _ & _ & Hen & Hpaint & Hrun & _)]; [done|].
    rewrite Hrun. destruct he; [done|]. exfalso.
    assert (empty_at g1 (x, y)) as [_ He1].
    { eapply scan_inv_empty; [done|by split]. }
    rewrite (Hdone (x, y) Hp Hpb He1) in Hc; [done|].
    intros Hr. by apply Hen in Hr. }
  assert (∀ y, 1 ≤ y < GRID_HEIGHT - 1 → claim_row es g' y = Ok g') as Hrow.
  { intros y Hy. unfold claim_row.
    destruct (for_each_inv (λ g, g = g') (λ _ _, True) (λ _ _, True)
                (claim_cell es y) (seqZ 1 (GRID_WIDTH - 2))) with (a := g')
      as (a' & Hrun & -> & _); [done|done|done| |done|done].
    intros a x Hx ->. apply elem_of_seqZ in Hx. exists g'.
    split; [apply Hcell; split; simpl; lia|done]. }
  unfold claim_scan.
  destruct (for_each_inv (λ g, g = g') (λ _ _, True) (λ _ _, True)
              (claim_row es) (seqZ 1 (GRID_HEIGHT - 2))) with (a := g')
    as (a' & Hrun & -> & _); [done|done|done| |done|done].
  intros a y Hy ->. apply elem_of_seqZ in Hy. exists g'.
  split; [apply Hrow; lia|done].
Qed.

(** A claiming pass is idempotent: run again on its own result, with the
    same enemies and the same or an empty trail, it returns that result
    unchanged. *)
Theorem claim_territory_idempotent g tr es g' :
  wf_grid g → Forall inb tr →
  claim_territory g tr es = Ok g' →
  claim_territory g' tr es = Ok g' ∧ claim_territory g' [] es = Ok g'.
Proof.
  intros Hwf Htr Hrun.
  destruct (mark_trail_spec g tr Hwf Htr) as (g1 & Hmark & Hwf1 & Hcell1).
  destruct (claim_scan_spec g1 es Hwf1) as (g2 & Hscan & Hinv & _ & Hdone).
  unfold claim_territory in Hrun. rewrite Hmark in Hrun. cbn in Hrun.
  rewrite Hscan in Hrun. injection Hrun as <-.
  pose proof (si_wf _ _ _ Hinv) as Hwf2.
  pose proof (claim_scan_fixpoint g1 es g2 Hinv Hdone) as Hfix.
  split.
  - destruct (mark_trail_spec g2 tr Hwf2 Htr) as (g3 & Hmark3 & Hwf3 & Hcell3).
    assert (g3 = g2) as ->.
    { apply grid_ext; [done|done|]. intros p Hp. rewrite Hcell3 by done.
      case_decide as Hin; [|done]. symmetry.
      rewrite (si_solid _ _ _ Hinv) by (done || rewrite Hcell1, decide_True by done; done).
      rewrite Hcell1 by done. by rewrite decide_True. }
    unfold claim_territory. rewrite Hmark3. cbn. done.
  - unfold claim_territory. cbn. done.
Qed.

Lemma claim_territory_idempotent_witness :
  claim_territory corner_after corner_trail [corner_enemy] = Ok corner_after ∧
  claim_territory corner_after [] [corner_enemy] = Ok corner_after.
Proof.
  apply (claim_territory_idempotent corner_board corner_trail [corner_enemy]);
    [by_eval|by_eval|vm_compute; reflexivity].
Defined.

(** With no enemies on the board, one claiming pass leaves no [EMPTY]
    interior cell: on a grid without [TRAIL] states every interior cell ends
    [CLAIMED] or [BORDER] and the percentage is 100. *)
Theorem claim_territory_no_enemies g tr :
  wf_grid g → Forall inb tr → (∀ p, inb p → cell g p ≠ TRAIL) →
  ∃ g' q, claim_territory g tr [] = Ok g' ∧
          (∀ p, interior p → cell g' p = CLAIMED ∨ cell g' p = BORDER) ∧
          calculate_percentage g' = Ok q ∧ (q == 100)%Q.
Proof.
  intros Hwf Htr Hnt.
  destruct (mark_trail_spec g tr Hwf Htr) as (g1 & Hmark & Hwf1 & Hcell1).
  destruct (claim_scan_spec g1 [] Hwf1) as (g' & Hscan & Hinv & _ & Hdone).
  assert (∀ p, interior p → cell g' p = CLAIMED ∨ cell g' p = BORDER) as Hall.
  { intros p Hp. pose proof (interior_inb _ Hp) as Hpb.
    destruct (decide (cell g1 p = EMPTY)) as [He|Hne].
    - left. apply Hdone; [done|done|done|]. intros (e & He' & _). by apply elem_of_nil in He'.
    - rewrite (si_solid _ _ _ Hinv p Hpb Hne). rewrite Hcell1 in * by done.
      case_decide; [by right|]. specialize (Hnt p Hpb). destruct (cell g p); naive_solver. }
  destruct (percentage_full_none g' (si_wf _ _ _ Hinv)) as (q & Hq & Hfull & _).
  exists g', q. split; [by unfold claim_territory; rewrite Hmark|].
  split; [done|]. split; [done|]. by apply Hfull.
Qed.

Lemma claim_territory_no_enemies_witness :
  ∃ g' q, claim_territory corner_board corner_trail [] = Ok g' ∧
          (∀ p, interior p → cell g' p = CLAIMED ∨ cell g' p = BORDER) ∧
          calculate_percentage g' = Ok q ∧ (q == 100)%Q.
Proof.
  apply (claim_territory_no_enemies corner_board corner_trail); [by_eval|by_eval|].
  assert (Forall (λ p, cell corner_board p ≠ TRAIL) all_cells) as H by by_eval.
  intros p Hp. by apply (proj1 (Forall_forall _ _) H), elem_of_all_cells.
Defined.

(** ** One movement update, case by case *)

Lemma destination_adj keys x y nx ny :
  destination keys x y = (nx, ny, true) → adj (x, y) (nx, ny).
Proof.
  unfold destination, adj. simpl.
  destruct (K_UP keys), (K_DOWN keys), (K_LEFT keys), (K_RIGHT keys);
    intros [= <- <-]; tauto.
Qed.

Lemma handle_movement_cases keys s s' :
  game_inv s → handle_movement keys s = Ok s' →
  s' = s ∨
  ∃ nx ny,
    destination keys (player_x s) (player_y s) = (nx, ny, true) ∧
    inb (nx, ny) ∧ game_over s = false ∧ game_won s = false ∧
    ((drawing s = false ∧ cell (grid s) (nx, ny) = EMPTY ∧
      s' = mkGame (grid s) nx ny (enemies s) [(nx, ny)] true (score s)
                  (running s) (game_over s) (game_won s) (message s)) ∨
     (drawing s = true ∧ (nx, ny) ∈ trail s ∧
      s' = set_game_over s "Hit your own trail!") ∨
     (drawing s = true ∧ (nx, ny) ∉ trail s ∧
      border_or_claimed (cell (grid s) (nx, ny)) = true ∧
      ∃ g', claim_territory (grid s) (trail s) (enemies s) = Ok g' ∧
            let sc := percentage_of (tally (cell g' <$> interior_cells)) interior_total in
            calculate_percentage g' = Ok sc ∧
            s' = mkGame g' nx ny (enemies s) [] false sc (running s) (game_over s)
                        (if Qle_bool TARGET_PERCENTAGE sc then true else game_won s)
                        (if Qle_bool TARGET_PERCENTAGE sc then "Victory!"%string
                         else message s)) ∨
     (drawing s = true ∧ (nx, ny) ∉ trail s ∧ cell (grid s) (nx, ny) = EMPTY ∧
      s' = mkGame (grid s) nx ny (enemies s) (trail s ++ [(nx, ny)]) (drawing s)
                  (score s) (running s) (game_over s) (game_won s) (message s)) ∨
     (drawing s = false ∧ cell (grid s) (nx, ny) ≠ EMPTY ∧
      s' = set_player s nx ny)).
Proof.
  intros Hinv. unfold handle_movement.
  destruct (game_over s) eqn:Hover; [intros [= <-]; by left|].
  destruct (game_won s) eqn:Hwon; [intros [= <-]; by left|]. cbn [orb].
  destruct (destination keys (player_x s) (player_y s)) as [[nx ny] moved] eqn:Hdest.
  destruct moved; [|intros [= <-]; by left]. cbn [andb].
  destruct (in_bounds nx ny) eqn:Hin; [|intros [= <-]; by left].
  apply in_bounds_true in Hin.
  rewrite process_movement_eq by (done || apply Hinv). cbn zeta.
  destruct (drawing s) eqn:Hd; cbn [negb andb].
  - case_bool_decide as Htr.
    { intros [= <-]. right. exists nx, ny. split_and!; try done. right. left.
      rewrite ?Hover, ?Hwon. by split_and!. }
    destruct (border_or_claimed _) eqn:Hb.
    + destruct (complete_trail_ok s nx ny (gi_wf _ Hinv) (game_inv_trail_inb _ Hinv))
        as (g' & Hrun & _ & Hpct & ->).
      intros [= <-]. right. exists nx, ny. split_and!; try done.
      do 2 right. left. split_and!; try done.
      exists g'. split; [done|]. cbn zeta. rewrite ?Hover, ?Hwon.
      split; [exact Hpct|reflexivity].
    + case_bool_decide as He; intros [= <-]; [|by left].
      right. exists nx, ny. split_and!; try done. do 3 right. left.
      rewrite ?Hover, ?Hwon. by split_and!.
  - case_bool_decide as He; intros [= <-]; right; exists nx, ny; split_and!; try done.
    + left. rewrite ?Hover, ?Hwon. by split_and!.
    + do 4 right. rewrite ?Hover, ?Hwon. by split_and!.
Qed.

Lemma path_snoc tr p q :
  path tr → last tr = Some p → adj p q → path (tr ++ [q]).
Proof.
  intros Hpath Hlast Hadj i a b Ha Hb.
  rewrite last_lookup in Hlast.
  assert (length tr ≠ 0)%nat as Hlen.
  { intros H0. apply nil_length_inv in H0. by subst. }
  destruct (decide (S i < length tr)%nat) as [Hi|Hi].
  - rewrite lookup_app_l in Ha, Hb by lia. by eapply Hpath.
  - apply lookup_lt_Some in Hb as Hlt. rewrite length_app in Hlt. simpl in Hlt.
    assert (S i = length tr) as Hi' by lia.
    rewrite lookup_app_l in Ha by lia.
    rewrite lookup_app_r in Hb by lia.
    replace (S i - length tr)%nat with 0%nat in Hb by lia. simpl in Hb.
    injection Hb as <-.
    replace (pred (length tr)) with i in Hlast by lia.
    rewrite Ha in Hlast. by injection Hlast as ->.
Qed.

Lemma handle_movement_walk keys s s' :
  game_inv s → walk_inv s → handle_movement keys s = Ok s' → walk_inv s'.
Proof.
  intros Hinv Hwalk Hrun.
  destruct (handle_movement_cases keys s s' Hinv Hrun)
    as [->|(nx & ny & Hdest & Hp & Hover & Hwon & Hcase)]; [done|].
  pose proof (destination_adj _ _ _ _ _ Hdest) as Hadj.
  destruct Hwalk as [Hnd Hpath Hdraw Hhead Hplayer Hsafe Hmsg Hscore Hwonq].
  destruct Hcase as [(Hd & He & ->)|[(Hd & Hin & ->)|[(Hd & Hnin & Hb & g' & Hclaim & Hpct & ->)|
                    [(Hd & Hnin & He & ->)|(Hd & Hne & ->)]]]]; cbn zeta in *.
  - split; simpl; try done. apply NoDup_singleton.
  - split; simpl; done.
  - destruct (claim_territory_frame _ _ (enemies s) (gi_wf _ Hinv)
                (game_inv_trail_inb _ Hinv)) as (g'' & Hclaim' & _ & Hframe).
    rewrite Hclaim in Hclaim'. injection Hclaim' as <-.
    split; simpl; try done.
    + constructor.
    + intros _. destruct (Hframe (nx, ny) Hp) as (_ & Hkeep & _).
      rewrite Hkeep; [done|done|]. intros He. by rewrite He in Hb.
    + by destruct (Qle_bool _ _).
    + by eexists.
    + destruct (Qle_bool _ _) eqn:Hq.
      * split; [|done]. intros _. by apply Qle_bool_iff.
      * rewrite Hwon. split; [done|]. intros Hle%Qle_bool_iff. by rewrite Hle in Hq.
  - split; simpl; try done.
    + apply NoDup_app. split; [done|]. split; [|apply NoDup_singleton].
      intros p Hp' ->%list_elem_of_singleton. done.
    + eapply path_snoc; [done|by apply Hhead|done].
    + split; [|done]. intros _ Hnil. by apply app_nil in Hnil as [_ ?].
    + intros _. by rewrite last_snoc.
    + intros Hf. by rewrite Hf in Hd.
  - split; simpl; try done.
    + intros Ht. by rewrite Ht in Hd.
    + intros _. pose proof (gi_no_trail _ Hinv (nx, ny) Hp).
      destruct (cell (grid s) (nx, ny)); done.
Qed.

(** ** The enemy loop *)

Lemma bounce_enemy_total g e : wf_grid g → ∃ e', bounce_enemy g e = Ok e'.
Proof.
  intros Hwf. unfold bounce_enemy.
  destruct (cell_solid_spec g ((e_x e + e_vx e) / GRID_SIZE)
              ((e_y e + e_vy e) / GRID_SIZE) Hwf) as (b & -> & _).
  destruct (_ || _), (_ || _); cbn; by eexists.
Qed.

Lemma hits_player_hits_trail tr px py e :
  (px, py) ∈ tr → _enemy_hits_player px py e = true → _enemy_hits_trail tr e = true.
Proof.
  intros Hin Hhit. unfold _enemy_hits_trail. apply existsb_exists.
  exists (px, py). split; [by apply list_elem_of_In|done].
Qed.

Lemma enemies_loop_spec s es :
  wf_grid (grid s) →
  ∀ over msg,
  ∃ es' over' msg',
    enemies_loop s es over msg = Ok (es', over', msg') ∧
    length es' = length es ∧
    (over = true → over' = true) ∧
    (drawing s = false → over' = over ∧ msg' = msg) ∧
    ((drawing s = true → (player_x s, player_y s) ∈ trail s) →
     msg' = msg ∨ msg' = "Enemy hit your trail!"%string).
Proof.
  intros Hwf. induction es as [|e es IH]; intros over msg.
  - exists [], over, msg. split_and!; try done. by left.
  - destruct (bounce_enemy_total (grid s) e Hwf) as (e' & He').
    cbn [enemies_loop]. rewrite He'. cbn [mbind Res_bind].
    destruct (drawing s) eqn:Hd; cbn [andb].
    + destruct (_enemy_hits_trail (trail s) e') eqn:Htrail.
      { exists (e' :: es), true, "Enemy hit your trail!"%string.
        split_and!; try done. by right. }
      destruct (_enemy_hits_player (player_x s) (player_y s) e') eqn:Hplayer.
      * destruct (IH true "Enemy hit you!"%string)
          as (es' & over' & msg' & -> & Hlen & Hov & _ & _).
        exists (e' :: es'), over', msg'. cbn. split_and!; try done.
        -- by rewrite Hlen.
        -- intros _. by apply Hov.
        -- intros Hin. rewrite (hits_player_hits_trail _ _ _ _ (Hin eq_refl) Hplayer) in Htrail.
           done.
      * destruct (IH over msg) as (es' & over' & msg' & -> & Hlen & Hov & _ & Hmsg).
        exists (e' :: es'), over', msg'. cbn. split_and!; try done. by rewrite Hlen.
    + destruct (IH over msg) as (es' & over' & msg' & -> & Hlen & Hov & Hidle & Hmsg).
      exists (e' :: es'), over', msg'. cbn. split_and!; try done. by rewrite Hlen.
Qed.

Lemma update_enemies_walk s s' :
  game_inv s → walk_inv s → update_enemies s = Ok s' → walk_inv s'.
Proof.
  intros Hinv Hwalk Hrun.
  destruct (enemies_loop_spec s (enemies s) (gi_wf _ Hinv) (game_over s) (message s))
    as (es' & over' & msg' & Hloop & _ & _ & _ & Hmsg).
  unfold update_enemies in Hrun. rewrite Hloop in Hrun. cbn in Hrun.
  injection Hrun as <-.
  destruct Hwalk as [Hnd Hpath Hdraw Hhead Hplayer Hsafe Hm Hscore Hwonq].
  split; simpl; try done.
  destruct Hmsg as [-> | ->]; [|done|done].
  intros Hd. specialize (Hhead Hd). rewrite last_lookup in Hhead.
  by apply list_elem_of_lookup_2 in Hhead.
Qed.

Lemma reset_game_state_walk ds s0 s : reset_game_state ds s0 = Ok s → walk_inv s.
Proof.
  unfold reset_game_state. rewrite reset_grid_ok. intros [= <-].
  assert (inb (GRID_WIDTH / 2, 0)) as Hplayer.
  { unfold inb. simpl. dims. split; [|lia].
    split; [apply Z.div_pos; lia|apply Z.div_lt_upper_bound; lia]. }
  split; cbn [grid player_x player_y enemies trail drawing score game_over
              game_won message].
  - constructor.
  - intros i p q Hp. done.
  - done.
  - done.
  - exact Hplayer.
  - intros _. rewrite fresh_board_cells by exact Hplayer.
    rewrite decide_False; [done|]. unfold interior. simpl. lia.
  - done.
  - destruct (percentage_full_none fresh_board fresh_board_wf) as (q & Hq & _ & Hzero).
    exists q. split; [done|]. apply Hzero. intros p Hp.
    rewrite fresh_board_cells by by apply interior_inb.
    rewrite decide_True by exact Hp. split; intros [=].
  - split; [done|]. intros Hle. by apply Qle_bool_iff in Hle.
Qed.

Lemma handle_input_walk ds ev s s' :
  walk_inv s → handle_input ds ev s = Ok s' → walk_inv s'.
Proof.
  intros Hwalk. unfold handle_input.
  destruct ev as [|[| |]|]; try (intros [= <-]; by destruct Hwalk).
  destruct (game_over s || game_won s); [apply reset_game_state_walk|].
  by intros [= <-].
Qed.

Lemma reachable_walk s : reachable s → walk_inv s.
Proof.
  induction 1 as [ds s0 s _ Hr|ds ev s s' Hs IH _ Hi|s s' Hs IH Hstep].
  - by eapply reset_game_state_walk.
  - by eapply handle_input_walk.
  - pose proof (reachable_inv _ Hs) as Hinv. revert Hinv IH.
    destruct Hstep as [keys s1 s2 Hm|s1 s2 _ _ He]; intros Hinv IH.
    + by eapply handle_movement_walk.
    + by eapply update_enemies_walk.
Qed.

(** ** Trail and player over a run *)

(** In every state of a run the trail has no repeated coordinate and is a
    path of 4-neighbours; the drawing flag is set exactly when the trail is
    not empty, and while it is set the player stands on the last trail
    cell. *)
Theorem trail_is_simple_path s :
  reachable s →
  NoDup (trail s) ∧ path (trail s) ∧
  (drawing s = true ↔ trail s ≠ []) ∧
  (drawing s = true → last (trail s) = Some (player_x s, player_y s)).
Proof. intros Hw%reachable_walk. by destruct Hw. Qed.

Lemma trail_is_simple_path_witness :
  NoDup (trail demo_drawing) ∧ path (trail demo_drawing) ∧
  (drawing demo_drawing = true ↔ trail demo_drawing ≠ []) ∧
  (drawing demo_drawing = true →
   last (trail demo_drawing) = Some (player_x demo_drawing, player_y demo_drawing)).
Proof. apply (trail_is_simple_path demo_drawing), demo_drawing_reachable. Defined.

(** In every state of a run the player is on the board: on a [BORDER] or
    [CLAIMED] cell when not drawing, and on an [EMPTY] cell that belongs to
    the trail when drawing. *)
Theorem player_on_solid_ground_or_trail s :
  reachable s →
  inb (player_x s, player_y s) ∧
  (drawing s = false →
   cell (grid s) (player_x s, player_y s) = BORDER ∨
   cell (grid s) (player_x s, player_y s) = CLAIMED) ∧
  (drawing s = true →
   (player_x s, player_y s) ∈ trail s ∧
   cell (grid s) (player_x s, player_y s) = EMPTY).
Proof.
  intros Hr. pose proof (reachable_walk _ Hr) as Hw.
  pose proof (reachable_inv _ Hr) as Hinv.
  split; [apply Hw|]. split.
  - intros Hd. pose proof (wi_safe _ Hw Hd) as Hb.
    destruct (cell (grid s) (player_x s, player_y s)); naive_solver.
  - intros Hd. pose proof (wi_head _ Hw Hd) as Hlast.
    rewrite last_lookup in Hlast. apply list_elem_of_lookup_2 in Hlast.
    split; [done|].
    by apply (proj1 (Forall_forall _ _) (gi_trail _ Hinv)) in Hlast as [_ ?].
Qed.

Lemma player_on_solid_ground_or_trail_witness :
  inb (player_x demo_drawing, player_y demo_drawing) ∧
  (drawing demo_drawing = false →
   cell (grid demo_drawing) (player_x demo_drawing, player_y demo_drawing) = BORDER ∨
   cell (grid demo_drawing) (player_x demo_drawing, player_y demo_drawing) = CLAIMED) ∧
  (drawing demo_drawing = true →
   (player_x demo_drawing, player_y demo_drawing) ∈ trail demo_drawing ∧
   cell (grid demo_drawing) (player_x demo_drawing, player_y demo_drawing) = EMPTY).
Proof.
  apply (player_on_solid_ground_or_trail demo_drawing), demo_drawing_reachable.
Defined.

(** A movement update moves the player by at most one cell, and never
    diagonally. *)
Theorem player_moves_one_cell keys s s' :
  reachable s → handle_movement keys s = Ok s' →
  (player_x s', player_y s') = (player_x s, player_y s) ∨
  adj (player_x s, player_y s) (player_x s', player_y s').
Proof.
  intros Hinv%reachable_inv Hrun.
  destruct (handle_movement_cases keys s s' Hinv Hrun)
    as [->|(nx & ny & Hdest%destination_adj & _ & _ & _ & Hcase)]; [by left|].
  destruct Hcase as [(_ & _ & ->)|[(_ & _ & ->)|[(_ & _ & _ & g' & _ & _ & ->)|
                    [(_ & _ & _ & ->)|(_ & _ & ->)]]]]; simpl; auto.
Qed.

Lemma player_moves_one_cell_witness :
  (player_x demo_drawing, player_y demo_drawing)
    = (player_x demo_start, player_y demo_start) ∨
  adj (player_x demo_start, player_y demo_start)
      (player_x demo_drawing, player_y demo_drawing).
Proof.
  apply (player_moves_one_cell key_down demo_start demo_drawing);
    [apply demo_start_reachable|vm_compute; reflexivity].
Defined.

(** ** Score and status over a run *)

(** In every state of a run the stored score equals the percentage computed
    from the grid, and the game is won exactly when the score has reached
    [TARGET_PERCENTAGE]. *)
Theorem score_matches_grid s :
  reachable s →
  (∃ q, calculate_percentage (grid s) = Ok q ∧ (q == score s)%Q) ∧
  (game_won s = true ↔ (TARGET_PERCENTAGE <= score s)%Q).
Proof. intros Hw%reachable_walk. by destruct Hw. Qed.

Lemma score_matches_grid_witness :
  (∃ q, calculate_percentage (grid demo_drawing) = Ok q ∧ (q == score demo_drawing)%Q) ∧
  (game_won demo_drawing = true ↔ (TARGET_PERCENTAGE <= score demo_drawing)%Q).
Proof. apply (score_matches_grid demo_drawing), demo_drawing_reachable. Defined.

(** No run ever shows "Enemy hit you!": while drawing, the player stands on
    a trail cell, so an enemy that reaches the player has reached the trail,
    and the trail test comes first. *)
Theorem enemy_hit_you_never_shown s :
  reachable s → message s ≠ "Enemy hit you!"%string.
Proof. intros Hw%reachable_walk. by destruct Hw. Qed.

Lemma enemy_hit_you_never_shown_witness :
  message demo_drawing ≠ "Enemy hit you!"%string.
Proof. apply (enemy_hit_you_never_shown demo_drawing), demo_drawing_reachable. Defined.

(** The branch itself works: with the player away from the trail it sets
    that message. *)
Example stray_player_is_hit :
  message <$> update_enemies stray_player = Ok "Enemy hit you!"%string.
Proof. vm_compute. reflexivity. Qed.

(** Once the game is lost or won, frame updates change nothing: the state,
    and with it the grid and the percentage, stays frozen until a reset. *)
Theorem terminal_state_is_frozen s s' :
  game_over s = true ∨ game_won s = true →
  rtc session_step s s' → s' = s.
Proof.
  intros Hterm Hsteps. induction Hsteps as [s|s s1 s' Hstep _ IH]; [done|].
  assert (s1 = s) as ->; [|by apply IH].
  revert Hterm. destruct Hstep as [keys s1 s2 Hm|s1 s2 Hover Hwon _]; intros Hterm.
  - unfold handle_movement in Hm.
    destruct Hterm as [Ht|Ht]; rewrite Ht in Hm; rewrite ?orb_true_r in Hm;
      cbn in Hm; by injection Hm.
  - destruct Hterm; congruence.
Qed.

Lemma terminal_state_is_frozen_witness :
  (game_over demo_lost = true ∨ game_won demo_lost = true) ∧
  rtc session_step demo_lost demo_lost ∧ demo_lost = demo_lost.
Proof.
  assert (rtc session_step demo_lost demo_lost) as Hsteps.
  { apply rtc_once, (step_move key_up). vm_compute. reflexivity. }
  split; [left; reflexivity|]. split; [exact Hsteps|].
  apply (terminal_state_is_frozen demo_lost demo_lost); [left; reflexivity|exact Hsteps].
Defined.

(** ** Enemy updates *)

(** On a grid of the game's dimensions [update_enemies] returns, and it
    touches only the enemies, [game_over] and the message: grid, trail,
    player, drawing flag, score and the win flag are as before and no enemy
    is added or removed.  It never clears [game_over], and while the player
    is not drawing it cannot end the game. *)
Theorem update_enemies_safe s :
  wf_grid (grid s) →
  ∃ s', update_enemies s = Ok s' ∧
    grid s' = grid s ∧ trail s' = trail s ∧ drawing s' = drawing s ∧
    player_x s' = player_x s ∧ player_y s' = player_y s ∧
    score s' = score s ∧ game_won s' = game_won s ∧
    length (enemies s') = length (enemies s) ∧
    (game_over s = true → game_over s' = true) ∧
    (drawing s = false → game_over s' = game_over s ∧ message s' = message s).
Proof.
  intros Hwf.
  destruct (enemies_loop_spec s (enemies s) Hwf (game_over s) (message s))
    as (es' & over' & msg' & Hloop & Hlen & Hov & Hidle & _).
  eexists. unfold update_enemies. rewrite Hloop. cbn.
  split; [done|]. by split_and!.
Qed.

Lemma update_enemies_safe_witness :
  ∃ s', update_enemies demo_start = Ok s' ∧
    grid s' = grid demo_start ∧ trail s' = trail demo_start ∧
    drawing s' = drawing demo_start ∧
    player_x s' = player_x demo_start ∧ player_y s' = player_y demo_start ∧
    score s' = score demo_start ∧ game_won s' = game_won demo_start ∧
    length (enemies s') = length (enemies demo_start) ∧
    (game_over demo_start = true → game_over s' = true) ∧
    (drawing demo_start = false →
     game_over s' = game_over demo_start ∧ message s' = message demo_start).
Proof. apply (update_enemies_safe demo_start), fresh_board_wf. Defined.

Lemma bounce_enemy_shape g e :
  wf_grid g →
  ∃ e', bounce_enemy g e = Ok e' ∧
        e_x e' = e_x e + e_vx e' ∧ e_y e' = e_y e + e_vy e' ∧
        Z.abs (e_vx e') = Z.abs (e_vx e) ∧ Z.abs (e_vy e') = Z.abs (e_vy e) ∧
        e_radius e' = e_radius e.
Proof.
  intros Hwf. unfold bounce_enemy.
  destruct (cell_solid_spec g ((e_x e + e_vx e) / GRID_SIZE)
              ((e_y e + e_vy e) / GRID_SIZE) Hwf) as (b & -> & _).
  destruct (_ || _), (_ || _), b; cbn; eexists; (split; [done|]); simpl; lia.
Qed.



(** ** The older enemy loop *)

Lemma legacy_enemies_loop_spec s es :
  wf_grid (grid s) →
  ∀ over msg,
  ∃ es' over' msg',
    legacy_enemies_loop s es over msg = Ok (es', over', msg') ∧
    length es' = length es ∧ (over = true → over' = true).
Proof.
  intros Hwf. induction es as [|e es IH]; intros over msg.
  - by exists [], over, msg.
  - destruct (bounce_enemy_total (grid s) e Hwf) as (e' & He').
    cbn [legacy_enemies_loop]. rewrite He'. cbn [mbind Res_bind].
    destruct (drawing s && _enemy_hits_trail (trail s) e') eqn:Ht,
             (drawing s && _enemy_hits_player (player_x s) (player_y s) e') eqn:Hp.
    all: match goal with
         | |- context [legacy_enemies_loop _ _ ?o ?m] =>
             destruct (IH o m) as (es' & over' & msg' & -> & Hlen & Hov)
         end.
    all: exists (e' :: es'), over', msg'; cbn; rewrite Hlen; split_and!; try done.
    all: intros; by apply Hov.
Qed.

(** The enemy loop of the older single-function version and
    [update_enemies]' loop both return on a grid of the game's dimensions
    and always agree on [game_over]; when no enemy touches the trail or the
    player they also agree on the enemies and the message. *)
Theorem enemy_loops_agree s es over msg :
  wf_grid (grid s) →
  ∃ es1 over1 msg1 es2 over2 msg2,
    enemies_loop s es over msg = Ok (es1, over1, msg1) ∧
    legacy_enemies_loop s es over msg = Ok (es2, over2, msg2) ∧
    over1 = over2 ∧ length es1 = length es2 ∧
    (over = false → over1 = false → es1 = es2 ∧ msg1 = msg2 ∧ msg1 = msg).
Proof.
  intros Hwf. revert over msg. induction es as [|e es IH]; intros over msg.
  - by exists [], over, msg, [], over, msg.
  - destruct (bounce_enemy_total (grid s) e Hwf) as (e' & He').
    cbn [enemies_loop legacy_enemies_loop]. rewrite He'. cbn [mbind Res_bind].
    destruct (drawing s && _enemy_hits_trail (trail s) e') eqn:Ht.
    { destruct (drawing s && _enemy_hits_player (player_x s) (player_y s) e').
      all: match goal with
           | |- context [legacy_enemies_loop _ _ ?o ?m] =>
               destruct (legacy_enemies_loop_spec s es Hwf o m)
                 as (es2 & over2 & msg2 & -> & Hlen & Hov)
           end.
      all: exists (e' :: es), true, "Enemy hit your trail!"%string,
                  (e' :: es2), over2, msg2; cbn; rewrite Hlen, Hov by done.
      all: by split_and!. }
    destruct (drawing s && _enemy_hits_player (player_x s) (player_y s) e') eqn:Hp.
    + destruct (IH true "Enemy hit you!"%string)
        as (es1 & over1 & msg1 & es2 & over2 & msg2 & H1 & H2 & Hov & Hlen & _).
      destruct (enemies_loop_spec s es Hwf true "Enemy hit you!"%string)
        as (es1' & over1' & msg1' & Hrun & _ & Htrue & _).
      rewrite H1 in Hrun. injection Hrun as <- <- <-.
      rewrite H1, H2.
      exists (e' :: es1), over1, msg1, (e' :: es2), over2, msg2. cbn.
      split_and!; try done; [by rewrite Hlen|].
      intros _ Hf. rewrite Htrue in Hf; done.
    + destruct (IH over msg)
        as (es1 & over1 & msg1 & es2 & over2 & msg2 & -> & -> & Hov & Hlen & Hsame).
      exists (e' :: es1), over1, msg1, (e' :: es2), over2, msg2. cbn.
      split_and!; try done; [by rewrite Hlen|].
      intros Ho Hf. destruct (Hsame Ho Hf) as (-> & -> & ->). done.
Qed.

Lemma enemy_loops_agree_witness :
  ∃ es1 over1 msg1 es2 over2 msg2,
    enemies_loop demo_under_attack (enemies demo_under_attack) false ""
      = Ok (es1, over1, msg1) ∧
    legacy_enemies_loop demo_under_attack (enemies demo_under_attack) false ""
      = Ok (es2, over2, msg2) ∧
    over1 = over2 ∧ length es1 = length es2 ∧
    (false = false → over1 = false → es1 = es2 ∧ msg1 = msg2 ∧ msg1 = ""%string).
Proof.
  apply (enemy_loops_agree demo_under_attack (enemies demo_under_attack) false "").
  apply fresh_board_wf.
Defined.

(** The two versions can name the reason differently: an enemy over the
    player's own trail cell is "Enemy hit your trail!" for [update_enemies]
    and "Enemy hit you!" for the older loop. *)
Example enemy_loops_differ_in_message :
  snd <$> enemies_loop demo_under_attack (enemies demo_under_attack) false ""
    = Ok "Enemy hit your trail!"%string ∧
  snd <$> legacy_enemies_loop demo_under_attack (enemies demo_under_attack) false ""
    = Ok "Enemy hit you!"%string.
Proof. split; vm_compute; reflexivity. Qed.

(** ** The other transitions of the trail state machine *)

(** For a game that has not ended and an in-bounds destination, on a grid
    of the game's dimensions: stepping from solid ground onto an [EMPTY]
    cell starts a trail holding just that cell; stepping while drawing onto
    an [EMPTY] cell outside the trail appends it; stepping from solid
    ground onto a cell that is not [EMPTY] only moves the player.  None of
    the three touches the grid, the enemies, the score or the status. *)
Theorem trail_starts_and_grows keys s nx ny :
  wf_grid (grid s) → Forall inb (trail s) →
  game_over s = false → game_won s = false →
  destination keys (player_x s) (player_y s) = (nx, ny, true) → inb (nx, ny) →
  ∃ s', handle_movement keys s = Ok s' ∧
    (drawing s = false → cell (grid s) (nx, ny) = EMPTY →
       s' = mkGame (grid s) nx ny (enemies s) [(nx, ny)] true (score s)
                   (running s) false false (message s)) ∧
    (drawing s = true → (nx, ny) ∉ trail s → cell (grid s) (nx, ny) = EMPTY →
       s' = mkGame (grid s) nx ny (enemies s) (trail s ++ [(nx, ny)]) true (score s)
                   (running s) false false (message s)) ∧
    (drawing s = false → cell (grid s) (nx, ny) ≠ EMPTY →
       s' = mkGame (grid s) nx ny (enemies s) (trail s) false (score s)
                   (running s) false false (message s)).
Proof.
  intros Hwf Htrail Hover Hwon Hdest Hp.
  unfold handle_movement. rewrite Hover, Hwon, Hdest. cbn [orb andb].
  rewrite (proj2 (in_bounds_true nx ny) Hp).
  rewrite process_movement_eq by done. cbn zeta.
  destruct (drawing s) eqn:Hd; cbn [negb andb].
  - case_bool_decide as Htr.
    { eexists. split; [reflexivity|]. split_and!; intros; done. }
    destruct (border_or_claimed (cell (grid s) (nx, ny))) eqn:Hb.
    + destruct (complete_trail_ok s nx ny Hwf Htrail) as (g' & _ & _ & _ & ->).
      eexists. split; [reflexivity|]. split_and!; intros; try done.
      match goal with H : cell _ _ = EMPTY |- _ => by rewrite H in Hb end.
    + case_bool_decide as He; (eexists; split; [reflexivity|]);
        split_and!; intros; try done.
      by rewrite Hover, Hwon.
  - case_bool_decide as He; (eexists; split; [reflexivity|]);
      split_and!; intros; try done.
    + by rewrite Hover, Hwon.
    + unfold set_player. by rewrite Hd, Hover, Hwon.
Qed.

Lemma trail_starts_and_grows_witness :
  ∃ s', handle_movement key_down demo_start = Ok s' ∧
    (drawing demo_start = false → cell (grid demo_start) (35, 1) = EMPTY →
       s' = mkGame (grid demo_start) 35 1 (enemies demo_start) [(35, 1)] true
                   (score demo_start) (running demo_start) false false
                   (message demo_start)) ∧
    (drawing demo_start = true → (35, 1) ∉ trail demo_start →
     cell (grid demo_start) (35, 1) = EMPTY →
       s' = mkGame (grid demo_start) 35 1 (enemies demo_start)
                   (trail demo_start ++ [(35, 1)]) true (score demo_start)
                   (running demo_start) false false (message demo_start)) ∧
    (drawing demo_start = false → cell (grid demo_start) (35, 1) ≠ EMPTY →
       s' = mkGame (grid demo_start) 35 1 (enemies demo_start) (trail demo_start) false
                   (score demo_start) (running demo_start) false false
                   (message demo_start)).
Proof.
  apply (trail_starts_and_grows key_down demo_start 35 1);
    [apply fresh_board_wf|constructor|reflexivity|reflexivity|reflexivity|by_eval].
Defined.

(** ** The enemies over a run *)

Lemma bounce_enemy_ok g e e' :
  wf_grid g → bounce_enemy g e = Ok e' → enemy_ok e → enemy_ok e'.
Proof.
  intros Hwf Hrun (Hr & Hvx & Hvy & Hx & Hy).
  destruct (bounce_enemy_shape g e Hwf) as (e'' & Hrun' & Hx' & Hy' & Hvx' & Hvy' & Hr').
  rewrite Hrun in Hrun'. injection Hrun' as <-.
  unfold enemy_ok. rewrite Hx', Hy', Hvx', Hvy', Hr'.
  split_and!; try done.
  - revert Hx. Z.div_mod_to_equations. lia.
  - revert Hy. Z.div_mod_to_equations. lia.
Qed.

Lemma enemies_loop_ok s es :
  wf_grid (grid s) → Forall enemy_ok es →
  ∀ over msg es' over' msg',
    enemies_loop s es over msg = Ok (es', over', msg') → Forall enemy_ok es'.
Proof.
  intros Hwf. induction 1 as [|e es He Hes IH]; intros over msg es' over' msg'.
  - by intros [= <- _ _].
  - cbn [enemies_loop].
    destruct (bounce_enemy (grid s) e) as [e1|] eqn:Hb; [|done]. cbn [mbind Res_bind].
    pose proof (bounce_enemy_ok _ _ _ Hwf Hb He) as He1.
    destruct (drawing s && _enemy_hits_trail (trail s) e1).
    { intros [= <- _ _]. by constructor. }
    destruct (drawing s && _enemy_hits_player (player_x s) (player_y s) e1).
    all: match goal with
         | |- context [enemies_loop _ _ ?o ?m] =>
             destruct (enemies_loop s es o m) as [[[es1 o1] m1]|] eqn:Hloop; [|done]
         end.
    all: cbn; intros [= <- _ _]; constructor; [done|by eapply IH].
Qed.

Lemma spawn_ok d : valid_draw d → enemy_ok (spawn d).
Proof.
  intros (_ & _ & Hvx & Hvy). unfold enemy_ok, spawn. simpl. dims.
  split_and!; try done; try lia.
  - replace GRID_SIZE with (5 * 2) by lia. rewrite Z.mul_assoc. apply Z_mod_mult.
  - replace GRID_SIZE with (5 * 2) by lia. rewrite Z.mul_assoc. apply Z_mod_mult.
Qed.

Lemma reset_game_state_enemies ds s0 s :
  valid_draws ds → reset_game_state ds s0 = Ok s →
  length (enemies s) = INITIAL_ENEMIES ∧ Forall enemy_ok (enemies s).
Proof.
  intros [Hlen Hvalid]. unfold reset_game_state. rewrite reset_grid_ok.
  intros [= <-]. cbn [enemies]. split; [by rewrite length_fmap|].
  apply Forall_fmap. eapply Forall_impl; [done|]. intros d. apply spawn_ok.
Qed.

Lemma reachable_enemies s :
  reachable s → length (enemies s) = INITIAL_ENEMIES ∧ Forall enemy_ok (enemies s).
Proof.
  induction 1 as [ds s0 s Hds Hr|ds ev s s' Hs IH Hds Hi|s s' Hs IH Hstep].
  - by eapply reset_game_state_enemies.
  - unfold handle_input in Hi.
    destruct ev as [|[| |]|]; try (injection Hi as <-; done).
    destruct (game_over s || game_won s);
      [by eapply reset_game_state_enemies|by injection Hi as <-].
  - pose proof (reachable_inv _ Hs) as Hinv. revert Hinv IH.
    destruct Hstep as [keys s1 s2 Hm|s1 s2 _ _ He]; intros Hinv IH.
    + destruct (handle_movement_cases keys s1 s2 Hinv Hm)
        as [->|(nx & ny & _ & _ & _ & _ & Hcase)]; [done|].
      destruct Hcase as [(_ & _ & ->)|[(_ & _ & ->)|[(_ & _ & _ & g' & _ & _ & ->)|
                        [(_ & _ & _ & ->)|(_ & _ & ->)]]]]; done.
    + destruct IH as [Hlen Hok].
      destruct (enemies_loop_spec s1 (enemies s1) (gi_wf _ Hinv) (game_over s1) (message s1))
        as (es' & over' & msg' & Hloop & Hlen' & _).
      unfold update_enemies in He. rewrite Hloop in He. cbn in He. injection He as <-.
      cbn [enemies]. split; [by rewrite Hlen'|].
      eapply (enemies_loop_ok s1 (enemies s1)); [apply Hinv|exact Hok|exact Hloop].
Qed.


